(** * Error-processing worker: a shallow embedding of [src/app/api/worker/route.ts]

    The route keeps one process-wide [memory] object, classifies the
    submitted error text with three keyword scanners and reports its
    progress through [realtimeEvents.emit].

    Modelling conventions.
    - A JavaScript string is a sequence of code units.  The development
      fixes the code units below 256 (Basic Latin and Latin-1 Supplement),
      represented by [string]; on that range [toLowerCase], [trim] and
      [includes] are given by their ECMAScript definitions.
    - A JavaScript number used as a counter is a [nat]; the counters of the
      route only ever grow by one from zero, which is exact below 2^53.
    - The objects [errorTypes] and [severityCount] are finite maps from
      strings to counts.
    - [new Date()] reads a wall clock.  The clock is part of the world the
      handler runs in: the [n]-th reading returns [clock n].
    - [POST] is an [async] function.  It is a value of [Async]: a call is
      suspended at each [await] of the source and runs alone between two of
      them, as the event loop of JavaScript runs it.  [complete] runs one
      call from start to end; [run] interleaves several calls. *)

From Stdlib Require Import Ascii String NArith.
From stdpp Require Import gmap strings list fin_maps sorting.

Local Open Scope string_scope.
Local Open Scope list_scope.

(** ** The string primitives of the JavaScript runtime used by the route *)

Module JS.

Definition code (c : ascii) : N := N_of_ascii c.

(** [String.prototype.toLowerCase] on one code unit of the Latin-1 range:
    A-Z and the capital letters U+00C0..U+00DE (without the multiplication
    sign U+00D7) move up by 32, everything else stays. *)
Definition toLowerCase_unit (c : ascii) : ascii :=
  let n := code c in
  if ((65 <=? n) && (n <=? 90))%N
     || ((192 <=? n) && (n <=? 222) && negb (n =? 215))%N
  then ascii_of_N (n + 32)
  else c.

Fixpoint toLowerCase (s : string) : string :=
  match s with
  | EmptyString => EmptyString
  | String c s' => String (toLowerCase_unit c) (toLowerCase s')
  end.

(** [String.prototype.startsWith]. *)
Fixpoint startsWith (s pat : string) : bool :=
  match pat, s with
  | EmptyString, _ => true
  | String _ _, EmptyString => false
  | String p pat', String c s' => bool_decide (p = c) && startsWith s' pat'
  end.

(** [String.prototype.includes]: [pat] occurs at some position of [s]. *)
Fixpoint includes (s pat : string) : bool :=
  startsWith s pat ||
  match s with
  | EmptyString => false
  | String _ s' => includes s' pat
  end.

(** White space and line terminators of ECMAScript in the Latin-1 range:
    TAB, LF, VT, FF, CR, SP and NBSP. *)
Definition isWhiteSpace (c : ascii) : bool :=
  bool_decide (code c ∈ [9; 10; 11; 12; 13; 32; 160]%N).

Fixpoint trimStart (s : string) : string :=
  match s with
  | EmptyString => EmptyString
  | String c s' => if isWhiteSpace c then trimStart s' else s
  end.

Fixpoint trimEnd (s : string) : string :=
  match s with
  | EmptyString => EmptyString
  | String c s' =>
      match trimEnd s' with
      | EmptyString => if isWhiteSpace c then EmptyString else String c EmptyString
      | t => String c t
      end
  end.

(** [String.prototype.trim]. *)
Definition trim (s : string) : string := trimEnd (trimStart s).

(** [s.substring(0, n)]: the first [n] code units of [s]. *)
Definition substring0 (n : nat) (s : string) : string := String.substring 0 n s.

End JS.

(** ** The classifier: [detectErrorType], [assessSeverity], [generateSuggestions] *)

Definition detectErrorType (error : string) : string :=
  let lowerError := JS.toLowerCase error in
  if JS.includes lowerError "syntax" then "Syntax Error"
  else if JS.includes lowerError "type" then "Type Error"
  else if JS.includes lowerError "reference" then "Reference Error"
  else if JS.includes lowerError "network" then "Network Error"
  else if JS.includes lowerError "timeout" then "Timeout Error"
  else "General Error".

Definition assessSeverity (error : string) : string :=
  let lowerError := JS.toLowerCase error in
  if JS.includes lowerError "critical" || JS.includes lowerError "fatal" then "critical"
  else if JS.includes lowerError "error" || JS.includes lowerError "exception" then "high"
  else if JS.includes lowerError "warning" then "medium"
  else "low".

Definition generateSuggestions (error : string) : list string :=
  let suggestions := ["Review error logs for additional context"; "Check recent code changes"] in
  let lowerError := JS.toLowerCase error in
  let suggestions :=
    if JS.includes lowerError "syntax"
    then suggestions ++ ["Validate code syntax"; "Check for missing brackets or semicolons"]
    else suggestions in
  let suggestions :=
    if JS.includes lowerError "network"
    then suggestions ++ ["Verify network connectivity"; "Check API endpoints"]
    else suggestions in
  let suggestions :=
    if JS.includes lowerError "timeout"
    then suggestions ++ ["Increase timeout duration"; "Optimize query performance"]
    else suggestions in
  suggestions.

(** ** The data of the route *)

(** A point in time, in milliseconds.  It stands both for a [Date] object
    and for its [toISOString()] rendering. *)
Definition Time := Z.

Record WorkflowResult := {
  errorType : string;
  severity : string;
  suggestions : list string;
  processedAt : Time;
}.

Module WorkflowRecord.
Record t := { id : string; result : WorkflowResult; timestamp : Time }.
End WorkflowRecord.

Record Statistics := {
  errorTypes : gmap string nat;
  severityCount : gmap string nat;
  averageProcessingTime : nat;
}.

Record MemoryStore := {
  totalErrors : nat;
  lastProcessed : option string;
  workflows : list WorkflowRecord.t;
  statistics : Statistics;
}.

(** What an event carries in [data]: nothing, the object [{ memory }] whose
    field is the shared [memory] object itself (a reference, not a copy), or
    the workflow result. *)
Inductive EventData :=
| NoData
| MemoryRef
| ResultData (r : WorkflowResult).

Module RealtimeEvent.
Record t := {
  id : string;
  type : string;
  message : string;
  timestamp : Time;
  status : string;
  data : EventData;
}.
End RealtimeEvent.

(** A value read from the JSON body.  [Number] keeps an integer (the handler
    only tests a number for being zero); [Object] stands for any object or
    array. *)
Inductive Value :=
| Undefined
| Null
| Bool (b : bool)
| Number (n : Z)
| Str (s : string)
| Object.

(** The fields [const { error, eventId } = body] reads.  [eventId] is a
    string, as the callers of the route send it. *)
Module Body.
Record t := { error : Value; eventId : string }.
End Body.

(** A request: [None] when [request.json()] rejects or yields [null], so that
    there is nothing to destructure. *)
Definition Request := option Body.t.

(** [Response.json(...)] serialises its argument when it is called, so a
    success response holds the store as it is at that moment. *)
Inductive Response :=
| Success (workflow : WorkflowResult) (memory : MemoryStore)
| Failure (status : nat) (error : string).

(** The module-level [memory] constant. *)
Definition initial_memory : MemoryStore := {|
  totalErrors := 0;
  lastProcessed := None;
  workflows := [];
  statistics := {| errorTypes := ∅; severityCount := ∅; averageProcessingTime := 0 |};
|}.

(** ** The world the handler runs in, and its effects *)

Record World := {
  memory : MemoryStore;
  published : list RealtimeEvent.t;
  clock : nat → Time;
  reads : nat;
}.

Definition initial_world (clock : nat → Time) : World :=
  {| memory := initial_memory; published := []; clock := clock; reads := 0 |}.

(** Synchronous code: a state transformer over the world. *)
Definition M (A : Type) : Type := World → A * World.

Global Instance M_ret : MRet M := λ A a w, (a, w).
Global Instance M_bind : MBind M :=
  λ A B k m w, let (a, w') := m w in k a w'.

(** [new Date()]. *)
Definition now : M Time :=
  λ w, (clock w (reads w),
        {| memory := memory w; published := published w;
           clock := clock w; reads := S (reads w) |}).

(** Modelled from the spec: [realtimeEvents.emit] of [@/lib/realtime], which
    is not part of the sources.  Publishing hands the event to the hub, which
    delivers events in publish order; the world records the sequence of
    published events. *)
Definition emit (e : RealtimeEvent.t) : M unit :=
  λ w, (tt, {| memory := memory w; published := published w ++ [e];
               clock := clock w; reads := reads w |}).

Definition get_memory : M MemoryStore := λ w, (memory w, w).

Definition set_memory (f : MemoryStore → MemoryStore) : M unit :=
  λ w, (tt, {| memory := f (memory w); published := published w;
               clock := clock w; reads := reads w |}).

(** The assignments to the fields of [memory]. *)
Definition set_totalErrors (n : nat) (m : MemoryStore) : MemoryStore :=
  {| totalErrors := n; lastProcessed := lastProcessed m;
     workflows := workflows m; statistics := statistics m |}.

Definition set_lastProcessed (s : option string) (m : MemoryStore) : MemoryStore :=
  {| totalErrors := totalErrors m; lastProcessed := s;
     workflows := workflows m; statistics := statistics m |}.

Definition set_workflows (l : list WorkflowRecord.t) (m : MemoryStore) : MemoryStore :=
  {| totalErrors := totalErrors m; lastProcessed := lastProcessed m;
     workflows := l; statistics := statistics m |}.

Definition set_errorTypes (k : string) (n : nat) (m : MemoryStore) : MemoryStore :=
  {| totalErrors := totalErrors m; lastProcessed := lastProcessed m;
     workflows := workflows m;
     statistics := {| errorTypes := <[k := n]> (errorTypes (statistics m));
                      severityCount := severityCount (statistics m);
                      averageProcessingTime := averageProcessingTime (statistics m) |} |}.

Definition set_severityCount (k : string) (n : nat) (m : MemoryStore) : MemoryStore :=
  {| totalErrors := totalErrors m; lastProcessed := lastProcessed m;
     workflows := workflows m;
     statistics := {| errorTypes := errorTypes (statistics m);
                      severityCount := <[k := n]> (severityCount (statistics m));
                      averageProcessingTime := averageProcessingTime (statistics m) |} |}.

(** [counts[k] || 0]: a missing key reads [undefined], which [||] replaces
    by [0]. *)
Definition count_of (counts : gmap string nat) (k : string) : nat :=
  default 0 (counts !! k).

(** An [async] function: it has returned, or it is suspended at an [await]
    and, when the event loop resumes it, runs synchronously up to its next
    [await] or its [return]. *)
#[warnings="-register-all"]
Inductive Async (A : Type) : Type :=
| Return (a : A)
| Await (k : M (Async A)).
Arguments Return {A} a.
Arguments Await {A} k.

(** [!v]: the values JavaScript counts as false. *)
Definition falsy (v : Value) : bool :=
  match v with
  | Undefined | Null => true
  | Bool b => negb b
  | Number n => bool_decide (n = 0%Z)
  | Str s => bool_decide (s = "")
  | Object => false
  end.

(** ** The handler *)

(** The events the handler builds; [t] is the reading of [new Date()]. *)
Definition validationEvent (eventId : string) (t : Time) : RealtimeEvent.t :=
  {| RealtimeEvent.id := eventId +:+ "_validation";
     RealtimeEvent.type := "validation";
     RealtimeEvent.message := "Validating error input...";
     RealtimeEvent.timestamp := t;
     RealtimeEvent.status := "processing";
     RealtimeEvent.data := NoData |}.

Definition errorEvent (eventId : string) (t : Time) : RealtimeEvent.t :=
  {| RealtimeEvent.id := eventId +:+ "_error";
     RealtimeEvent.type := "validation";
     RealtimeEvent.message := "Validation failed: Empty error message";
     RealtimeEvent.timestamp := t;
     RealtimeEvent.status := "error";
     RealtimeEvent.data := NoData |}.

Definition workflowEvent (eventId : string) (t : Time) : RealtimeEvent.t :=
  {| RealtimeEvent.id := eventId +:+ "_workflow";
     RealtimeEvent.type := "workflow";
     RealtimeEvent.message := "Calling error processing workflow...";
     RealtimeEvent.timestamp := t;
     RealtimeEvent.status := "processing";
     RealtimeEvent.data := NoData |}.

Definition memoryEvent (eventId : string) (t : Time) : RealtimeEvent.t :=
  {| RealtimeEvent.id := eventId +:+ "_memory";
     RealtimeEvent.type := "memory_update";
     RealtimeEvent.message := "Memory store updated";
     RealtimeEvent.timestamp := t;
     RealtimeEvent.status := "completed";
     RealtimeEvent.data := MemoryRef |}.

Definition completedEvent (eventId : string) (workflowResult : WorkflowResult)
    (t : Time) : RealtimeEvent.t :=
  {| RealtimeEvent.id := eventId;
     RealtimeEvent.type := "completed";
     RealtimeEvent.message :=
       "Error processed successfully: " +:+ errorType workflowResult;
     RealtimeEvent.timestamp := t;
     RealtimeEvent.status := "completed";
     RealtimeEvent.data := ResultData workflowResult |}.

(** The [catch] branch.  [console.error] writes to the log of the process,
    which is not part of the world. *)
Definition processing_failed : Response := Failure 500 "Processing failed".

(** Lines 60-112: everything after the second delay, run without
    suspension. *)
Definition process (error eventId : string) : M Response :=
  t ← now;
  let workflowResult :=
    {| errorType := detectErrorType error;
       severity := assessSeverity error;
       suggestions := generateSuggestions error;
       processedAt := t |} in
  set_memory (λ m, set_totalErrors (totalErrors m + 1) m);;
  set_memory (set_lastProcessed (Some (JS.substring0 100 error)));;
  t ← now;
  let workflowRecord :=
    {| WorkflowRecord.id := eventId;
       WorkflowRecord.result := workflowResult;
       WorkflowRecord.timestamp := t |} in
  set_memory (λ m, set_workflows (take 10 (workflowRecord :: workflows m)) m);;
  set_memory (λ m,
    set_errorTypes (errorType workflowResult)
      (count_of (errorTypes (statistics m)) (errorType workflowResult) + 1) m);;
  set_memory (λ m,
    set_severityCount (severity workflowResult)
      (count_of (severityCount (statistics m)) (severity workflowResult) + 1) m);;
  t ← now;
  emit (memoryEvent eventId t);;
  t ← now;
  emit (completedEvent eventId workflowResult t);;
  memory ← get_memory;
  mret (Success workflowResult memory).

(** Lines 34-58: the code between the two delays.  [!error] holds for the
    falsy values; on a truthy value that is not a string [error.trim] is not
    a function and the call throws into the [catch]. *)
Definition validate (error : Value) (eventId : string) : M (Async Response) :=
  let invalid : M (Async Response) :=
    t ← now;
    emit (errorEvent eventId t);;
    mret (Return (Failure 400 "Invalid input")) in
  if falsy error then invalid
  else
    match error with
    | Str s =>
      if bool_decide (String.length (JS.trim s) = 0) then invalid
      else
        t ← now;
        emit (workflowEvent eventId t);;
        mret (Await (* setTimeout 1000 *)
          (r ← process s eventId; mret (Return r)))
    | _ => mret (Return processing_failed)
    end.

Definition POST (request : Request) : Async Response :=
  Await (* await request.json() *)
    match request with
    | None => mret (Return processing_failed)
    | Some body =>
      let error := Body.error body in
      let eventId := Body.eventId body in
      t ← now;
      emit (validationEvent eventId t);;
      mret (Await (* setTimeout 500 *) (validate error eventId))
    end.

(** ** The event loop *)

(** Resuming a suspended call runs it up to its next suspension; a call that
    has returned stays as it is. *)
Definition resume {A} (task : Async A) : M (Async A) :=
  match task with
  | Return a => mret (Return a)
  | Await k => k
  end.

(** One call run alone, from its start to its [return]. *)
Fixpoint complete {A} (task : Async A) (w : World) : A * World :=
  match task with
  | Return a => (a, w)
  | Await k => let (task', w') := k w in complete task' w'
  end.

(** Calls in flight at the same time: the event loop resumes one suspended
    call at a time, and the resumed call runs alone up to its next
    suspension.  A schedule lists, in order, which call is resumed. *)
Abbreviation Pool := (list (Async Response)).

Definition step (i : nat) (st : Pool * World) : Pool * World :=
  match st.1 !! i with
  | Some task => let (task', w') := resume task st.2 in (<[i := task']> st.1, w')
  | None => st
  end.

Definition run (schedule : list nat) (st : Pool * World) : Pool * World :=
  foldl (λ st i, step i st) st schedule.

Definition returned {A} (task : Async A) : bool :=
  match task with
  | Return _ => true
  | Await _ => false
  end.

(** Requests handled one after the other, each to its end. *)
Definition serve (requests : list Request) (w : World) : World :=
  foldl (λ w request, (complete (POST request) w).2) w requests.

(** ** The notions the properties are stated with *)

(** Case-insensitive occurrence: some stretch of [text] equals [kw] up to
    the case of its letters. *)
Definition same_ignoring_case (a b : string) : Prop :=
  JS.toLowerCase a = JS.toLowerCase b.

Definition occurs_ignoring_case (kw text : string) : Prop :=
  ∃ pre mid post, text = pre +:+ mid +:+ post ∧ same_ignoring_case mid kw.

(** A rule table: groups of keywords with the tag of each group, tried from
    the first to the last, and a tag for the text no group matches.
    [picks text rules fallback tag]: [tag] is the tag of the first group one
    of whose keywords occurs in [text], or [fallback] when there is none. *)
Inductive picks (text : string) :
    list (list string * string) → string → string → Prop :=
| picks_fallback fallback :
    picks text [] fallback fallback
| picks_first kws tag rules fallback :
    (∃ kw, kw ∈ kws ∧ occurs_ignoring_case kw text) →
    picks text ((kws, tag) :: rules) fallback tag
| picks_next kws tag rules fallback res :
    (∀ kw, kw ∈ kws → ¬ occurs_ignoring_case kw text) →
    picks text rules fallback res →
    picks text ((kws, tag) :: rules) fallback res.

Definition errorType_rules : list (list string * string) :=
  [ (["syntax"], "Syntax Error");
    (["type"], "Type Error");
    (["reference"], "Reference Error");
    (["network"], "Network Error");
    (["timeout"], "Timeout Error") ].

Definition severity_rules : list (list string * string) :=
  [ (["critical"; "fatal"], "critical");
    (["error"; "exception"], "high");
    (["warning"], "medium") ].

(** The suggestions a keyword contributes: its items when it occurs in the
    text, nothing otherwise. *)
Definition contributes (kw : string) (items : list string) (text : string)
    (l : list string) : Prop :=
  (occurs_ignoring_case kw text ∧ l = items) ∨
  (¬ occurs_ignoring_case kw text ∧ l = []).

Definition baseline_suggestions : list string :=
  ["Review error logs for additional context"; "Check recent code changes"].

(** A text made of white space only (the empty text included). *)
Fixpoint all_whitespace (s : string) : bool :=
  match s with
  | EmptyString => true
  | String c s' => JS.isWhiteSpace c && all_whitespace s'
  end.

(** The sum of all counts of a counter table. *)
Definition sum_counts (counts : gmap string nat) : nat :=
  map_fold (λ _ n acc, n + acc) 0 counts.

Definition counts_agree (m : MemoryStore) : Prop :=
  totalErrors m = sum_counts (errorTypes (statistics m)) ∧
  totalErrors m = sum_counts (severityCount (statistics m)).

(** The store update of one classified request, as one function of the
    store: the count goes up by one, the text is kept cut to 100 code units,
    the record goes in front of the history cut to 10, and the counters of
    the result's error type and severity go up by one. *)
Definition applyResult (requestId : string) (result : WorkflowResult)
    (rawInputText : string) (timestamp : Time) (m : MemoryStore) : MemoryStore :=
  {| totalErrors := totalErrors m + 1;
     lastProcessed := Some (JS.substring0 100 rawInputText);
     workflows :=
       take 10 ({| WorkflowRecord.id := requestId;
                   WorkflowRecord.result := result;
                   WorkflowRecord.timestamp := timestamp |} :: workflows m);
     statistics :=
       {| errorTypes :=
            <[errorType result :=
                count_of (errorTypes (statistics m)) (errorType result) + 1]>
              (errorTypes (statistics m));
          severityCount :=
            <[severity result :=
                count_of (severityCount (statistics m)) (severity result) + 1]>
              (severityCount (statistics m));
          averageProcessingTime := averageProcessingTime (statistics m) |} |}.

(** The classification of a text at time [t]. *)
Definition classify (text : string) (t : Time) : WorkflowResult :=
  {| errorType := detectErrorType text;
     severity := assessSeverity text;
     suggestions := generateSuggestions text;
     processedAt := t |}.

(** The world after [n] more readings of the clock and the events [evs]
    published, with the store [m]. *)
Definition after (w : World) (n : nat) (evs : list RealtimeEvent.t)
    (m : MemoryStore) : World :=
  {| memory := m; published := published w ++ evs;
     clock := clock w; reads := n + reads w |}.

Arguments detectErrorType : simpl never.
Arguments assessSeverity : simpl never.
Arguments generateSuggestions : simpl never.
Arguments JS.substring0 : simpl never.
Arguments JS.trim : simpl never.

(** The input the handler is to refuse: the text is missing, empty or made
    of white space only. *)
Definition blank_input (error : Value) : Prop :=
  error = Undefined ∨ ∃ s, error = Str s ∧ all_whitespace s = true.

(** The stage an event reports: its type and its status. *)
Definition stage_of (e : RealtimeEvent.t) : string * string :=
  (RealtimeEvent.type e, RealtimeEvent.status e).

(** An event id made of the request identifier and a suffix after it. *)
Definition has_stage_suffix (eventId : string) (e : RealtimeEvent.t) : Prop :=
  ∃ suffix, suffix ≠ "" ∧ RealtimeEvent.id e = eventId +:+ suffix.

(** The id the route gives to the event of each stage of the request
    [eventId]: the identifier followed by the suffix of the stage, and the
    identifier itself at the [completed] stage.  There is no event of any
    other stage. *)
Definition id_at_stage (eventId : string) (stage : string * string) : option string :=
  if bool_decide (stage = ("validation", "processing"))
  then Some (eventId +:+ "_validation")
  else if bool_decide (stage = ("validation", "error"))
  then Some (eventId +:+ "_error")
  else if bool_decide (stage = ("workflow", "processing"))
  then Some (eventId +:+ "_workflow")
  else if bool_decide (stage = ("memory_update", "completed"))
  then Some (eventId +:+ "_memory")
  else if bool_decide (stage = ("completed", "completed"))
  then Some eventId
  else None.

(** An event of the request [eventId] whose id is the id of its own stage. *)
Definition id_of_request (eventId : string) (e : RealtimeEvent.t) : Prop :=
  id_at_stage eventId (stage_of e) = Some (RealtimeEvent.id e).

(** A clock for the examples: the [n]-th reading is [n]. *)
Definition tick : nat → Time := Z.of_nat.

(** The record a call puts in the store when it succeeds: the request
    identifier, the result the call answers with, and the fourth reading of
    the clock since the call began. *)
Definition record_of (request : Request) (w : World) : option WorkflowRecord.t :=
  match request, (complete (POST request) w).1 with
  | Some body, Success workflow _ =>
      Some {| WorkflowRecord.id := Body.eventId body;
              WorkflowRecord.result := workflow;
              WorkflowRecord.timestamp := clock w (3 + reads w) |}
  | _, _ => None
  end.

(** The records of the calls that succeeded among [requests], handled one
    after the other from the world [w]; the record of the latest call comes
    first. *)
Fixpoint history (requests : list Request) (w : World) : list WorkflowRecord.t :=
  match requests with
  | [] => []
  | request :: rest =>
      history rest (complete (POST request) w).2 ++ option_list (record_of request w)
  end.

(** ** Store updates in a row *)

(** One store update: the arguments of [applyResult]. *)
Module Update.
Record t := {
  requestId : string;
  result : WorkflowResult;
  rawInputText : string;
  timestamp : Time;
}.
End Update.

Definition apply_update (m : MemoryStore) (u : Update.t) : MemoryStore :=
  applyResult (Update.requestId u) (Update.result u) (Update.rawInputText u)
    (Update.timestamp u) m.

(** The updates applied one after the other, the first of the list first. *)
Definition apply_serially (updates : list Update.t) (m : MemoryStore) : MemoryStore :=
  foldl apply_update m updates.

(** The request an update belongs to: its identifier and its text. *)
Definition request_of_update (u : Update.t) : string * string :=
  (Update.requestId u, Update.rawInputText u).

(** How many entries of [tags] are [k]. *)
Definition occurrences (k : string) (tags : list string) : nat :=
  length (filter (λ tag, tag = k) tags).

(** The calls of the requests [(eventId, text)], all started and none
    resumed yet. *)
Definition in_flight (requests : list (string * string)) : Pool :=
  (λ r, POST (Some {| Body.error := Str r.2; Body.eventId := r.1 |})) <$> requests.

(** ** Calls in flight, by stage

    A call on a text that passes validation is at one of four points: at
    [await request.json()], at the first delay, at the second delay, or
    returned.  [task_of] gives the suspended call of each point, and
    [advance] what resuming it does. *)
Inductive Stage :=
| Received
| Validating
| Processing
| Completed (processedAt timestamp : Time) (snapshot : MemoryStore).

Module Call.
Record t := { eventId : string; text : string; stage : Stage }.
End Call.

Definition task_of (c : Call.t) : Async Response :=
  match Call.stage c with
  | Received =>
      POST (Some {| Body.error := Str (Call.text c); Body.eventId := Call.eventId c |})
  | Validating => Await (validate (Str (Call.text c)) (Call.eventId c))
  | Processing =>
      Await (r ← process (Call.text c) (Call.eventId c); mret (Return r))
  | Completed processedAt _ snapshot =>
      Return (Success (classify (Call.text c) processedAt) snapshot)
  end.

Definition at_stage (c : Call.t) (stage : Stage) : Call.t :=
  {| Call.eventId := Call.eventId c; Call.text := Call.text c; Call.stage := stage |}.

Definition update_of (c : Call.t) : option Update.t :=
  match Call.stage c with
  | Completed processedAt timestamp _ =>
      Some {| Update.requestId := Call.eventId c;
              Update.result := classify (Call.text c) processedAt;
              Update.rawInputText := Call.text c;
              Update.timestamp := timestamp |}
  | _ => None
  end.

Definition advance (c : Call.t) : M Call.t :=
  λ w,
    match Call.stage c with
    | Received =>
        (at_stage c Validating,
         after w 1 [validationEvent (Call.eventId c) (clock w (reads w))] (memory w))
    | Validating =>
        (at_stage c Processing,
         after w 1 [workflowEvent (Call.eventId c) (clock w (reads w))] (memory w))
    | Processing =>
        let result := classify (Call.text c) (clock w (reads w)) in
        let t := clock w (1 + reads w) in
        let m := applyResult (Call.eventId c) result (Call.text c) t (memory w) in
        (at_stage c (Completed (clock w (reads w)) t m),
         after w 4 [memoryEvent (Call.eventId c) (clock w (2 + reads w));
                    completedEvent (Call.eventId c) result (clock w (3 + reads w))] m)
    | Completed _ _ _ => (c, w)
    end.

Definition request_of_call (c : Call.t) : string * string :=
  (Call.eventId c, Call.text c).

Definition received (r : string * string) : Call.t :=
  {| Call.eventId := r.1; Call.text := r.2; Call.stage := Received |}.

(** The calls of [requests] after some resumptions, started on the store
    [m0]: the calls are still those of [requests], in their order; the store
    is [m0] with the updates of [log] applied one after the other; and [log]
    holds the updates of the calls that have returned, each once. *)
Record serialised (requests : list (string * string)) (m0 : MemoryStore)
    (calls : list Call.t) (w : World) (log : list Update.t) : Prop := {
  ser_requests : request_of_call <$> calls = requests;
  ser_memory : memory w = apply_serially log m0;
  ser_log : log ≡ₚ omap update_of calls;
}.

(** The store [m] counts every request of [requests] once on top of the
    store [m0]: in the total, in the counter of its error type, in the
    counter of its severity, and so in the sums of both tables. *)
Definition counts_each_once (requests : list (string * string))
    (m0 m : MemoryStore) : Prop :=
  totalErrors m = totalErrors m0 + length requests ∧
  (∀ k, count_of (errorTypes (statistics m)) k =
        count_of (errorTypes (statistics m0)) k +
        occurrences k ((λ r, detectErrorType r.2) <$> requests)) ∧
  (∀ k, count_of (severityCount (statistics m)) k =
        count_of (severityCount (statistics m0)) k +
        occurrences k ((λ r, assessSeverity r.2) <$> requests)) ∧
  sum_counts (errorTypes (statistics m)) =
    sum_counts (errorTypes (statistics m0)) + length requests ∧
  sum_counts (severityCount (statistics m)) =
    sum_counts (severityCount (statistics m0)) + length requests.

(** The forms a call of the route takes while the event loop runs it,
    whatever its request: just called, suspended at the first delay,
    suspended at the second delay, or returned. *)
Inductive in_progress : Async Response → Prop :=
| in_progress_called request :
    in_progress (POST request)
| in_progress_validating error eventId :
    in_progress (Await (validate error eventId))
| in_progress_processing text eventId :
    in_progress (Await (r ← process text eventId; mret (Return r)))
| in_progress_returned response :
    in_progress (Return response).

(** The store invariant: the counts agree and the history is bounded. *)
Definition store_ok (m : MemoryStore) : Prop :=
  counts_agree m ∧ (length (workflows m) ≤ 10)%nat.

(** A clock that never goes back. *)
Definition monotone (clock : nat → Time) : Prop :=
  ∀ i j, (i ≤ j)%nat → (clock i ≤ clock j)%Z.

(** Records in reverse-chronological order: no record is older than a record
    after it in the list. *)
Definition newest_first (l : list WorkflowRecord.t) : Prop :=
  StronglySorted
    (λ a b, (WorkflowRecord.timestamp b ≤ WorkflowRecord.timestamp a)%Z) l.

(** ** The kinds of input

    The values of [error] by what the handler does with them. *)

(** The values [!error] holds of, and the texts of white space: refused with
    status 400. *)
Definition refused_input (error : Value) : Prop :=
  error ∈ [Undefined; Null; Bool false; Number 0] ∨
  ∃ s, error = Str s ∧ all_whitespace s = true.

(** The truthy values that are not strings: they have no [trim] method. *)
Definition not_a_text (error : Value) : Prop :=
  error = Bool true ∨ (∃ n, n ≠ 0%Z ∧ error = Number n) ∨ error = Object.

(** The requests the route accepts: a text with a code unit that is not
    white space. *)
Definition accepted (request : Request) : bool :=
  match request with
  | Some body =>
      match Body.error body with
      | Str s => negb (all_whitespace s)
      | _ => false
      end
  | None => false
  end.

(** The events one call publishes when it is run alone from [w]. *)
Definition events_of (request : Request) (w : World) : list RealtimeEvent.t :=
  drop (length (published w)) (published (complete (POST request) w).2).

(** What a call in progress still has to do, however it is interleaved with
    others: [still_to_do task updates events] holds of a call of the route
    that will apply [updates] more store updates and publish [events] more
    events before it has returned. *)
Inductive still_to_do : Async Response → nat → nat → Prop :=
| to_do_bad_body :
    still_to_do (POST None) 0 0
| to_do_called_text s eventId :
    all_whitespace s = false →
    still_to_do (POST (Some {| Body.error := Str s; Body.eventId := eventId |})) 1 4
| to_do_called_refused error eventId :
    refused_input error →
    still_to_do (POST (Some {| Body.error := error; Body.eventId := eventId |})) 0 2
| to_do_called_not_a_text error eventId :
    not_a_text error →
    still_to_do (POST (Some {| Body.error := error; Body.eventId := eventId |})) 0 1
| to_do_validating_text s eventId :
    all_whitespace s = false →
    still_to_do (Await (validate (Str s) eventId)) 1 3
| to_do_validating_refused error eventId :
    refused_input error →
    still_to_do (Await (validate error eventId)) 0 1
| to_do_validating_not_a_text error eventId :
    not_a_text error →
    still_to_do (Await (validate error eventId)) 0 0
| to_do_processing text eventId :
    still_to_do (Await (r ← process text eventId; mret (Return r))) 1 2
| to_do_returned response :
    still_to_do (Return response) 0 0.

(** The number of events a request makes the route publish. *)
Definition events_due (request : Request) : nat :=
  match request with
  | None => 0
  | Some body =>
      match Body.error body with
      | Str s => if all_whitespace s then 2 else 4
      | error => if falsy error then 2 else 1
      end
  end.

Definition errorType_tags : list string :=
  ["Syntax Error"; "Type Error"; "Reference Error"; "Network Error";
   "Timeout Error"; "General Error"].

Definition severity_tags : list string := ["critical"; "high"; "medium"; "low"].

(** A counter table whose keys are among [tags] and whose counts are all
    positive. *)
Definition counts_within (tags : list string) (counts : gmap string nat) : Prop :=
  map_Forall (λ k n, k ∈ tags ∧ (0 < n)%nat) counts.

(** What a request makes the route do in all: the number of store updates
    and the number of events. *)
Definition due_of (request : Request) : nat * nat :=
  (if accepted request then 1 else 0, events_due request).

(** The severities from the lowest to the highest, and the severities at
    least as high as a given one. *)
Definition severity_rank (severity : string) : nat :=
  if bool_decide (severity = "critical") then 3
  else if bool_decide (severity = "high") then 2
  else if bool_decide (severity = "medium") then 1
  else 0.

(** Events in the order of their timestamps. *)
Definition in_time_order (evs : list RealtimeEvent.t) : Prop :=
  StronglySorted
    (λ a b, (RealtimeEvent.timestamp a ≤ RealtimeEvent.timestamp b)%Z) evs.

(** A call resumed three times by the event loop, with nothing in between. *)
Definition resume_three_times (task : Async Response) : M (Async Response) :=
  task ← resume task; task ← resume task; resume task.

(** The text of a request the route accepts. *)
Definition accepted_text (request : Request) : option string :=
  match request with
  | Some body =>
      match Body.error body with
      | Str s => if all_whitespace s then None else Some s
      | _ => None
      end
  | None => None
  end.

(** ** Letters and their case

    The letters of the Latin-1 range by their code points, without reference
    to [toLowerCase]: the capital letters are A to Z (65 to 90) and the
    accented capitals from U+00C0 to U+00DE (192 to 222) other than the
    multiplication sign U+00D7 (215); the small letter of a capital is 32
    code points after it. *)
Definition capital (c : ascii) : Prop :=
  (65 ≤ JS.code c ≤ 90)%N ∨ ((192 ≤ JS.code c ≤ 222)%N ∧ JS.code c ≠ 215%N).

Definition small_of (u l : ascii) : Prop :=
  capital u ∧ JS.code l = (JS.code u + 32)%N.

(** Two code units that are the same letter: the same code unit, or a
    capital and its small letter. *)
Definition same_letter (a b : ascii) : Prop :=
  a = b ∨ small_of a b ∨ small_of b a.

(** Two texts that are equal up to the case of their letters: they have the
    same length and the same letter at every position. *)
Inductive equal_up_to_case : string → string → Prop :=
| equal_up_to_case_empty :
    equal_up_to_case EmptyString EmptyString
| equal_up_to_case_letter a b s t :
    same_letter a b → equal_up_to_case s t →
    equal_up_to_case (String a s) (String b t).

(** * Properties *)

(** ** The string primitives *)

Lemma startsWith_spec s pat :
  JS.startsWith s pat = true ↔ ∃ post, s = pat +:+ post.
Proof.
  revert s. induction pat as [|p pat IH]; intros s; simpl.
  - destruct s; split; intros; [by eexists| done | by eexists | done].
  - destruct s as [|c s]; simpl.
    + split; [done|]. intros [post H]. discriminate.
    + rewrite andb_true_iff, bool_decide_eq_true, IH. split.
      * intros [-> [post ->]]. by exists post.
      * intros [post H]. injection H as -> ->. eauto.
Qed.

Lemma includes_spec s pat :
  JS.includes s pat = true ↔ ∃ pre post, s = pre +:+ pat +:+ post.
Proof.
  induction s as [|c s IH]; cbn [JS.includes].
  - rewrite orb_false_r, startsWith_spec. split.
    + intros [post H]. by exists "", post.
    + intros [pre [post H]]. destruct pre; [by exists post|discriminate].
  - rewrite orb_true_iff, startsWith_spec, IH. split.
    + intros [[post H]|[pre [post H]]].
      * by exists "", post.
      * exists (String c pre), post. simpl. by rewrite H.
    + intros [pre [post H]]. destruct pre as [|c' pre]; simpl in H.
      * left. by exists post.
      * right. injection H as -> ->. by exists pre, post.
Qed.

Lemma toLowerCase_app a b :
  JS.toLowerCase (a +:+ b) = JS.toLowerCase a +:+ JS.toLowerCase b.
Proof. induction a as [|c a IH]; simpl; [done|by rewrite IH]. Qed.

Lemma toLowerCase_split s a b :
  JS.toLowerCase s = a +:+ b →
  ∃ s1 s2, s = s1 +:+ s2 ∧ JS.toLowerCase s1 = a ∧ JS.toLowerCase s2 = b.
Proof.
  revert s. induction a as [|c a IH]; intros s H; simpl in H.
  - by exists "", s.
  - destruct s as [|d s]; simpl in H; [discriminate|].
    injection H as Hc H. destruct (IH _ H) as (s1 & s2 & -> & H1 & H2).
    exists (String d s1), s2. simpl. by rewrite Hc, H1.
Qed.

(** The test the classifier performs, [lowerError.includes(kw)] with a
    keyword in lower case, is case-insensitive occurrence in the text. *)
Lemma includes_toLowerCase kw text :
  JS.toLowerCase kw = kw →
  JS.includes (JS.toLowerCase text) kw = true ↔ occurs_ignoring_case kw text.
Proof.
  intros Hkw. rewrite includes_spec. unfold occurs_ignoring_case, same_ignoring_case.
  split.
  - intros (a & b & H).
    destruct (toLowerCase_split _ _ _ H) as (pre & rest & -> & Hpre & Hrest).
    destruct (toLowerCase_split _ _ _ Hrest) as (mid & post & -> & Hmid & Hpost).
    exists pre, mid, post. by rewrite Hmid, Hkw.
  - intros (pre & mid & post & -> & Hmid).
    exists (JS.toLowerCase pre), (JS.toLowerCase post).
    by rewrite !toLowerCase_app, Hmid, Hkw.
Qed.

Lemma includes_lower_true kw text :
  JS.toLowerCase kw = kw →
  JS.includes (JS.toLowerCase text) kw = true → occurs_ignoring_case kw text.
Proof. intros Hkw. by apply includes_toLowerCase. Qed.

Lemma includes_lower_false kw text :
  JS.toLowerCase kw = kw →
  JS.includes (JS.toLowerCase text) kw = false → ¬ occurs_ignoring_case kw text.
Proof.
  intros Hkw H Hocc. apply (includes_toLowerCase _ _ Hkw) in Hocc. congruence.
Qed.

(** Case analysis on every keyword test of the goal, each replaced by the
    fact about the text it decides. *)
Ltac keyword_cases text :=
  repeat match goal with
  | |- context [JS.includes (JS.toLowerCase text) ?kw] =>
      let H := fresh "H" in
      destruct (JS.includes (JS.toLowerCase text) kw) eqn:H;
      [ apply (includes_lower_true kw text eq_refl) in H
      | apply (includes_lower_false kw text eq_refl) in H ]
  end.

Ltac keyword_absent :=
  let kw := fresh "kw" in
  let Hkw := fresh "Hkw" in
  intros kw Hkw;
  repeat (apply elem_of_cons in Hkw as [->|Hkw]; [assumption|]);
  by apply elem_of_nil in Hkw.

Ltac keyword_present :=
  match goal with
  | H : occurs_ignoring_case ?kw _ |- ∃ _, _ ∈ _ ∧ occurs_ignoring_case _ _ =>
      exists kw; split; [set_solver|exact H]
  end.

(** ** The classifier *)

(** C5: the error type of a text is the tag of the first keyword, in the
    order syntax, type, reference, network, timeout, that occurs in the text
    whatever the case of its letters, and [General Error] when none of them
    occurs. *)
Theorem detectErrorType_first_match (text : string) :
  picks text errorType_rules "General Error" (detectErrorType text) ∧
  ((∀ kw, kw ∈ ["syntax"; "type"; "reference"; "network"; "timeout"] →
      ¬ occurs_ignoring_case kw text) →
   detectErrorType text = "General Error").
Proof.
  split.
  - unfold detectErrorType, errorType_rules. cbv zeta. keyword_cases text;
      repeat first
        [ apply picks_fallback
        | apply picks_first; keyword_present
        | apply picks_next; [keyword_absent|] ].
  - intros Hnone. unfold detectErrorType. cbv zeta. keyword_cases text;
      try done; exfalso;
      match goal with
      | H : occurs_ignoring_case ?kw _ |- _ => apply (Hnone kw); [set_solver|exact H]
      end.
Qed.

(** C6: the severity of a text is [critical] when critical or fatal occurs
    in it, otherwise [high] when error or exception occurs, otherwise
    [medium] when warning occurs, otherwise [low]; so fatal or critical
    gives [critical] whatever else the text holds. *)
Theorem assessSeverity_first_match (text : string) :
  picks text severity_rules "low" (assessSeverity text) ∧
  (occurs_ignoring_case "fatal" text ∨ occurs_ignoring_case "critical" text →
   assessSeverity text = "critical").
Proof.
  split.
  - unfold assessSeverity, severity_rules. cbv zeta. keyword_cases text; simpl;
      repeat first
        [ apply picks_fallback
        | apply picks_first; keyword_present
        | apply picks_next; [keyword_absent|] ].
  - intros Hocc. unfold assessSeverity. cbv zeta.
    keyword_cases text; simpl; try done; tauto.
Qed.

(** C7: the suggestions are the two baseline entries, then the syntax pair
    if syntax occurs in the text, then the network pair if network occurs,
    then the timeout pair if timeout occurs, and nothing else. *)
Theorem generateSuggestions_blocks (text : string) :
  ∃ syn net tmo,
    contributes "syntax"
      ["Validate code syntax"; "Check for missing brackets or semicolons"] text syn ∧
    contributes "network"
      ["Verify network connectivity"; "Check API endpoints"] text net ∧
    contributes "timeout"
      ["Increase timeout duration"; "Optimize query performance"] text tmo ∧
    generateSuggestions text = baseline_suggestions ++ syn ++ net ++ tmo.
Proof.
  unfold generateSuggestions, contributes, baseline_suggestions. cbv zeta.
  keyword_cases text; eexists _, _, _; (split; [|split; [|split]]);
    try (left; split; [eassumption|reflexivity]);
    try (right; split; [eassumption|reflexivity]);
    reflexivity.
Qed.

(** ** White space *)

Lemma trimStart_all_whitespace s :
  all_whitespace s = true → JS.trimStart s = "".
Proof.
  induction s as [|c s IH]; simpl; [done|].
  intros [Hc Hs]%andb_true_iff. rewrite Hc. auto.
Qed.

Lemma trimEnd_keeps_letter c s :
  JS.isWhiteSpace c = false → JS.trimEnd (String c s) ≠ "".
Proof. intros Hc. simpl. rewrite Hc. by destruct (JS.trimEnd s). Qed.

Lemma trimStart_not_all_whitespace s :
  all_whitespace s = false →
  ∃ c s', JS.trimStart s = String c s' ∧ JS.isWhiteSpace c = false.
Proof.
  induction s as [|c s IH]; simpl; [done|].
  destruct (JS.isWhiteSpace c) eqn:Hc; simpl; [done|].
  intros _. by exists c, s.
Qed.

(** [error.trim().length === 0] holds exactly of the texts made of white
    space. *)
Lemma trim_length_0 s :
  String.length (JS.trim s) = 0 ↔ all_whitespace s = true.
Proof.
  unfold JS.trim. destruct (all_whitespace s) eqn:Hs.
  - by rewrite (trimStart_all_whitespace s Hs).
  - destruct (trimStart_not_all_whitespace s Hs) as (c & s' & -> & Hc).
    pose proof (trimEnd_keeps_letter c s' Hc) as Hne.
    destruct (JS.trimEnd (String c s')); [done|]. simpl. split; discriminate.
Qed.

Lemma all_whitespace_false_nonempty s :
  all_whitespace s = false → s ≠ "".
Proof. by intros H ->. Qed.

(** ** One call of the handler, run alone *)

Lemma World_eq (w1 w2 : World) :
  memory w1 = memory w2 → published w1 = published w2 →
  clock w1 = clock w2 → reads w1 = reads w2 → w1 = w2.
Proof. destruct w1, w2; simpl; by intros -> -> -> ->. Qed.

Lemma process_effect (error eventId : string) (w : World) :
  let result := classify error (clock w (reads w)) in
  let m := applyResult eventId result error (clock w (1 + reads w)) (memory w) in
  process error eventId w =
    (Success result m,
     after w 4 [memoryEvent eventId (clock w (2 + reads w));
                completedEvent eventId result (clock w (3 + reads w))] m).
Proof.
  cbv zeta. unfold process, mbind, mret, M_bind, M_ret. simpl.
  f_equal. apply World_eq; simpl; try done. by rewrite <- app_assoc.
Qed.

Lemma validate_blank (error : Value) (eventId : string) (w : World) :
  (falsy error = true ∨ ∃ s, error = Str s ∧ all_whitespace s = true) →
  validate error eventId w =
    (Return (Failure 400 "Invalid input"),
     after w 1 [errorEvent eventId (clock w (reads w))] (memory w)).
Proof.
  intros [Hf|(s & -> & Hs)]; unfold validate; cbv zeta.
  - rewrite Hf. by apply injective_projections; [|apply World_eq].
  - cbn [falsy]. rewrite (bool_decide_eq_true_2 (String.length _ = 0))
      by by apply trim_length_0.
    destruct (bool_decide (s = "")); by apply injective_projections; [|apply World_eq].
Qed.

Lemma validate_text (s eventId : string) (w : World) :
  all_whitespace s = false →
  validate (Str s) eventId w =
    (Await (r ← process s eventId; mret (Return r)),
     after w 1 [workflowEvent eventId (clock w (reads w))] (memory w)).
Proof.
  intros Hs. unfold validate. cbv zeta. cbn [falsy].
  rewrite bool_decide_eq_false_2 by by apply all_whitespace_false_nonempty.
  rewrite bool_decide_eq_false_2.
  - by apply injective_projections; [|apply World_eq].
  - rewrite trim_length_0. congruence.
Qed.

Lemma validate_throws (error : Value) (eventId : string) (w : World) :
  falsy error = false → (∀ s, error ≠ Str s) →
  validate error eventId w = (Return processing_failed, w).
Proof.
  intros Hf Hs. unfold validate. cbv zeta. rewrite Hf.
  destruct error; try done. by destruct (Hs s).
Qed.

Lemma POST_start (error : Value) (eventId : string) (w : World) :
  resume (POST (Some {| Body.error := error; Body.eventId := eventId |})) w =
    (Await (validate error eventId),
     after w 1 [validationEvent eventId (clock w (reads w))] (memory w)).
Proof. by apply injective_projections; [|apply World_eq]. Qed.

Lemma after_after w n1 evs1 m1 n2 evs2 m2 :
  after (after w n1 evs1 m1) n2 evs2 m2 = after w (n2 + n1) (evs1 ++ evs2) m2.
Proof.
  apply World_eq; simpl; try done.
  - by rewrite app_assoc.
  - lia.
Qed.

Lemma complete_resume {A} (task : Async A) (w : World) :
  complete task w = complete (resume task w).1 (resume task w).2.
Proof. destruct task as [a|k]; simpl; [done|]. by destruct (k w). Qed.

(** The four ways a call ends. *)
Lemma POST_not_json (w : World) :
  complete (POST None) w = (processing_failed, w).
Proof. done. Qed.

Lemma POST_blank (error : Value) (eventId : string) (w : World) :
  (falsy error = true ∨ ∃ s, error = Str s ∧ all_whitespace s = true) →
  complete (POST (Some {| Body.error := error; Body.eventId := eventId |})) w =
    (Failure 400 "Invalid input",
     after w 2 [validationEvent eventId (clock w (reads w));
                errorEvent eventId (clock w (1 + reads w))] (memory w)).
Proof.
  intros H. rewrite (complete_resume (POST _)), POST_start. cbn [fst snd complete].
  rewrite validate_blank by done. cbn [complete]. by rewrite after_after.
Qed.

Lemma POST_throws (error : Value) (eventId : string) (w : World) :
  falsy error = false → (∀ s, error ≠ Str s) →
  complete (POST (Some {| Body.error := error; Body.eventId := eventId |})) w =
    (processing_failed,
     after w 1 [validationEvent eventId (clock w (reads w))] (memory w)).
Proof.
  intros Hf Hs. rewrite (complete_resume (POST _)), POST_start. cbn [fst snd complete].
  by rewrite validate_throws.
Qed.

Lemma POST_text (s eventId : string) (w : World) :
  all_whitespace s = false →
  let result := classify s (clock w (2 + reads w)) in
  let m := applyResult eventId result s (clock w (3 + reads w)) (memory w) in
  complete (POST (Some {| Body.error := Str s; Body.eventId := eventId |})) w =
    (Success result m,
     after w 6 [validationEvent eventId (clock w (reads w));
                workflowEvent eventId (clock w (1 + reads w));
                memoryEvent eventId (clock w (4 + reads w));
                completedEvent eventId result (clock w (5 + reads w))] m).
Proof.
  intros Hs. cbv zeta.
  rewrite (complete_resume (POST _)), POST_start. cbn [fst snd complete].
  rewrite validate_text by done. cbn [complete].
  unfold mbind at 1, M_bind at 1. rewrite process_effect.
  unfold mret, M_ret. cbn [complete]. by rewrite !after_after.
Qed.

(** Every request is of one of the four kinds. *)
Lemma request_cases (request : Request) :
  request = None ∨
  (∃ error eventId,
     request = Some {| Body.error := error; Body.eventId := eventId |} ∧
     (falsy error = true ∨ ∃ s, error = Str s ∧ all_whitespace s = true)) ∨
  (∃ error eventId,
     request = Some {| Body.error := error; Body.eventId := eventId |} ∧
     falsy error = false ∧ ∀ s, error ≠ Str s) ∨
  (∃ s eventId,
     request = Some {| Body.error := Str s; Body.eventId := eventId |} ∧
     all_whitespace s = false).
Proof.
  destruct request as [[error eventId]|]; [|by left]. right.
  destruct (falsy error) eqn:Hf; [left; eauto 6|].
  destruct error as [| |b|n|s|];
    try (right; left; do 2 eexists; split; [reflexivity|by split]).
  destruct (all_whitespace s) eqn:Hs.
  - left. exists (Str s), eventId. eauto.
  - right. right. by exists s, eventId.
Qed.

Lemma blank_input_refused (error : Value) :
  blank_input error →
  falsy error = true ∨ ∃ s, error = Str s ∧ all_whitespace s = true.
Proof. intros [->|H]; [by left|by right]. Qed.

(** ** Validation and the order of events *)

(** C3: a request whose text is missing, empty or all white space is
    answered with the failure "Invalid input" (status 400); the store is left
    as it was; and the events of the call are the validation event followed
    by one validation event of status [error], which is the last one. *)
Theorem blank_input_rejected (w : World) (error : Value) (eventId : string) :
  blank_input error →
  let (response, w') :=
    complete (POST (Some {| Body.error := error; Body.eventId := eventId |})) w in
  response = Failure 400 "Invalid input" ∧
  memory w' = memory w ∧
  ∃ started failed,
    published w' = published w ++ [started; failed] ∧
    stage_of started = ("validation", "processing") ∧
    stage_of failed = ("validation", "error").
Proof.
  intros H%blank_input_refused. rewrite POST_blank by done.
  repeat split. by eexists _, _.
Qed.

Lemma blank_input_rejected_witness :
  blank_input (Str "  ") ∧
  let (response, w') :=
    complete (POST (Some {| Body.error := Str "  "; Body.eventId := "e1" |}))
      (initial_world tick) in
  response = Failure 400 "Invalid input" ∧
  memory w' = memory (initial_world tick) ∧
  ∃ started failed,
    published w' = published (initial_world tick) ++ [started; failed] ∧
    stage_of started = ("validation", "processing") ∧
    stage_of failed = ("validation", "error").
Proof.
  split.
  - right. by exists "  ".
  - apply (blank_input_rejected (initial_world tick) (Str "  ") "e1").
    right. by exists "  ".
Defined.

(** C4: a call that succeeds publishes, in this order, a validation event
    (processing), a workflow event (processing), a memory_update event
    (completed) and a completed event (completed), and nothing else; a call
    refused as invalid publishes the validation event and then a validation
    event of status [error], and no workflow, memory_update or completed
    event.  (A call that fails with status 500 publishes at most the first
    validation event.) *)
Theorem events_in_fixed_order (w : World) (request : Request) :
  let (response, w') := complete (POST request) w in
  ∃ evs,
    published w' = published w ++ evs ∧
    match response with
    | Success _ _ =>
        stage_of <$> evs =
          [("validation", "processing"); ("workflow", "processing");
           ("memory_update", "completed"); ("completed", "completed")]
    | Failure status _ =>
        (status = 400 ∧
         stage_of <$> evs = [("validation", "processing"); ("validation", "error")]) ∨
        (status = 500 ∧
         (evs = [] ∨ stage_of <$> evs = [("validation", "processing")]))
    end.
Proof.
  destruct (request_cases request)
    as [->|[(error & eventId & -> & H)|[(error & eventId & -> & Hf & Hs)
                                        |(s & eventId & -> & Hs)]]].
  - rewrite POST_not_json. exists []. split; [by rewrite app_nil_r|].
    right. split; [done|by left].
  - rewrite POST_blank by done. eexists. split; [done|]. by left.
  - rewrite POST_throws by done. eexists. split; [done|].
    right. split; [done|by right].
  - rewrite POST_text by done. eexists. by split.
Qed.

(** ** Event ids *)

Lemma string_app_inj (s a b : string) : s +:+ a = s +:+ b → a = b.
Proof. induction s as [|c s IH]; simpl; [done|]. intros [=]. auto. Qed.

Lemma string_app_empty_r (s : string) : s +:+ "" = s.
Proof.
  induction s as [|c s IH]; [done|].
  change (String c (s +:+ "") = String c s). by f_equal.
Qed.

Lemma string_app_self (s a : string) : s +:+ a = s → a = "".
Proof.
  intros H. apply (string_app_inj s). by rewrite string_app_empty_r.
Qed.

(** C8, as stated, fails: the completed event of a call carries the request
    identifier itself, with no suffix after it. *)
Lemma completed_event_id_has_no_suffix :
  let (_, w') :=
    complete (POST (Some {| Body.error := Str "boom"; Body.eventId := "e1" |}))
      (initial_world tick) in
  ¬ Forall (has_stage_suffix "e1") (published w').
Proof.
  rewrite POST_text by done. simpl. intros H.
  do 3 apply Forall_cons in H as [_ H]. apply Forall_cons in H as [H _].
  destruct H as (suffix & Hne & Hid). simpl in Hid.
  injection Hid as Hid. by destruct suffix.
Qed.

Lemma events_of_request_ids (eventId : string) (t0 t1 t2 t3 t4 : Time)
    (result : WorkflowResult) :
  Forall (id_of_request eventId)
    [validationEvent eventId t0; errorEvent eventId t1; workflowEvent eventId t2;
     memoryEvent eventId t3; completedEvent eventId result t4].
Proof. repeat apply Forall_cons_2; [..|apply Forall_nil_2]; reflexivity. Qed.

(** The id is tied to the stage: an event with the id of another stage is
    not an event of the request. *)
Example id_of_another_stage :
  ¬ id_of_request "e1"
      {| RealtimeEvent.id := "e1_memory";
         RealtimeEvent.type := "workflow";
         RealtimeEvent.message := "Calling error processing workflow...";
         RealtimeEvent.timestamp := 0%Z;
         RealtimeEvent.status := "processing";
         RealtimeEvent.data := NoData |}.
Proof. by vm_compute. Qed.

Ltac distinct_ids eventId :=
  repeat (apply NoDup_cons_2; [|]); [..|apply NoDup_nil_2];
  rewrite ?elem_of_cons, ?elem_of_nil;
  let Hin := fresh "Hin" in
  intros Hin; repeat destruct Hin as [Hin|Hin]; try done;
  first [ by apply (string_app_inj eventId) in Hin
        | by apply (string_app_self eventId) in Hin
        | symmetry in Hin; by apply (string_app_self eventId) in Hin ].

(** C8, amended: the id of every event of a call is the request identifier
    followed by the suffix of the stage of that event: "_validation" on the
    validation event of status processing, "_error" on the validation event
    of status error, "_workflow" on the workflow event and "_memory" on the
    memory_update event; the completed event is the exception, its id is the
    request identifier itself; and the ids of the events of one call are
    pairwise distinct. *)
Theorem event_ids_of_request (w : World) (error : Value) (eventId : string) :
  let (_, w') :=
    complete (POST (Some {| Body.error := error; Body.eventId := eventId |})) w in
  ∃ evs,
    published w' = published w ++ evs ∧
    Forall (id_of_request eventId) evs ∧
    NoDup (RealtimeEvent.id <$> evs).
Proof.
  destruct (request_cases (Some {| Body.error := error; Body.eventId := eventId |}))
    as [?|[(error' & eventId' & [= <- <-] & H)|[(error' & eventId' & [= <- <-] & Hf & Hs)
                                        |(s & eventId' & [= -> <-] & Hs)]]];
    [done| | |].
  - rewrite POST_blank by done. eexists. split; [done|]. split.
    + pose proof (events_of_request_ids eventId (clock w (reads w))
        (clock w (1 + reads w)) 0%Z 0%Z 0%Z (classify "" 0%Z)) as Hall.
      rewrite !Forall_cons in Hall. rewrite !Forall_cons. tauto.
    + simpl. distinct_ids eventId.
  - rewrite POST_throws by done. eexists. split; [done|]. split.
    + pose proof (events_of_request_ids eventId (clock w (reads w))
        0%Z 0%Z 0%Z 0%Z (classify "" 0%Z)) as Hall.
      rewrite !Forall_cons in Hall. rewrite !Forall_cons. tauto.
    + simpl. distinct_ids eventId.
  - rewrite POST_text by done. eexists. split; [done|]. split.
    + pose proof (events_of_request_ids eventId (clock w (reads w)) 0%Z
        (clock w (1 + reads w)) (clock w (4 + reads w)) (clock w (5 + reads w))
        (classify s (clock w (2 + reads w)))) as Hall.
      rewrite !Forall_cons in Hall. rewrite !Forall_cons. tauto.
    + simpl. distinct_ids eventId.
Qed.

(** ** The store *)

Lemma sum_counts_insert_fresh (counts : gmap string nat) (k : string) (n : nat) :
  counts !! k = None → sum_counts (<[k := n]> counts) = n + sum_counts counts.
Proof.
  intros Hk. unfold sum_counts. rewrite map_fold_insert_L; [done| |done].
  intros. lia.
Qed.

Lemma sum_counts_lookup (counts : gmap string nat) (k : string) (n : nat) :
  counts !! k = Some n → sum_counts counts = n + sum_counts (delete k counts).
Proof.
  intros Hk. unfold sum_counts. rewrite (map_fold_delete_L _ _ k n); [done| |done].
  intros. lia.
Qed.

(** Counting one more occurrence of [k] adds one to the sum of the table,
    whether [k] was in the table or not. *)
Lemma sum_counts_increment (counts : gmap string nat) (k : string) :
  sum_counts (<[k := count_of counts k + 1]> counts) = sum_counts counts + 1.
Proof.
  unfold count_of. destruct (counts !! k) as [n|] eqn:Hk; simpl.
  - rewrite <- insert_delete_eq.
    rewrite sum_counts_insert_fresh by apply lookup_delete_eq.
    rewrite (sum_counts_lookup counts k n Hk). lia.
  - rewrite sum_counts_insert_fresh by done. lia.
Qed.

Lemma count_of_increment (counts : gmap string nat) (k j : string) :
  count_of (<[k := count_of counts k + 1]> counts) j =
    count_of counts j + (if bool_decide (k = j) then 1 else 0).
Proof.
  unfold count_of. case_bool_decide as Hkj.
  - subst j. by rewrite lookup_insert_eq.
  - rewrite lookup_insert_ne by done. lia.
Qed.

Lemma applyResult_counts_agree requestId result text t (m : MemoryStore) :
  counts_agree m → counts_agree (applyResult requestId result text t m).
Proof.
  intros [He Hs]. split; simpl; rewrite sum_counts_increment; lia.
Qed.

Lemma initial_memory_counts_agree : counts_agree initial_memory.
Proof. split; simpl; unfold sum_counts; by rewrite map_fold_empty. Qed.

(** What one call does to the store: nothing, or one [applyResult]. *)
Lemma POST_memory (request : Request) (w : World) :
  (record_of request w = None ∧
   memory (complete (POST request) w).2 = memory w) ∨
  (∃ s eventId,
     request = Some {| Body.error := Str s; Body.eventId := eventId |} ∧
     all_whitespace s = false ∧
     record_of request w =
       Some {| WorkflowRecord.id := eventId;
               WorkflowRecord.result := classify s (clock w (2 + reads w));
               WorkflowRecord.timestamp := clock w (3 + reads w) |} ∧
     memory (complete (POST request) w).2 =
       applyResult eventId (classify s (clock w (2 + reads w))) s
         (clock w (3 + reads w)) (memory w)).
Proof.
  unfold record_of.
  destruct (request_cases request)
    as [->|[(error & eventId & -> & H)|[(error & eventId & -> & Hf & Hs)
                                        |(s & eventId & -> & Hs)]]].
  - left. by rewrite POST_not_json.
  - left. by rewrite POST_blank.
  - left. by rewrite POST_throws.
  - right. exists s, eventId. by rewrite POST_text.
Qed.

Lemma serve_cons (request : Request) (rest : list Request) (w : World) :
  serve (request :: rest) w = serve rest (complete (POST request) w).2.
Proof. done. Qed.

Lemma serve_counts_agree (requests : list Request) (w : World) :
  counts_agree (memory w) → counts_agree (memory (serve requests w)).
Proof.
  revert w. induction requests as [|request rest IH]; intros w Hw; [done|].
  rewrite serve_cons. apply IH.
  destruct (POST_memory request w) as [[_ ->]|(s & eventId & _ & _ & _ & ->)];
    [done|by apply applyResult_counts_agree].
Qed.

(** C1: from the empty store, after any sequence of requests handled by the
    route, [totalErrors] is the sum of the counts of [errorTypes] and the
    sum of the counts of [severityCount]. *)
Theorem totalErrors_is_sum_of_counts (clock : nat → Time) (requests : list Request) :
  let m := memory (serve requests (initial_world clock)) in
  totalErrors m = sum_counts (errorTypes (statistics m)) ∧
  totalErrors m = sum_counts (severityCount (statistics m)).
Proof. apply serve_counts_agree, initial_memory_counts_agree. Qed.

(** ** The history of workflows *)

Lemma take_app_take {A} (n : nat) (l1 l2 : list A) :
  take n (l1 ++ take n l2) = take n (l1 ++ l2).
Proof.
  rewrite !take_app. f_equal. rewrite take_take. f_equal. lia.
Qed.

Lemma POST_workflows (request : Request) (w : World) :
  (length (workflows (memory w)) ≤ 10)%nat →
  workflows (memory (complete (POST request) w).2) =
    take 10 (option_list (record_of request w) ++ workflows (memory w)).
Proof.
  intros Hlen.
  destruct (POST_memory request w) as [[-> ->]|(s & eventId & _ & _ & -> & ->)].
  - simpl. by rewrite take_ge.
  - done.
Qed.

Lemma serve_workflows (requests : list Request) (w : World) :
  (length (workflows (memory w)) ≤ 10)%nat →
  workflows (memory (serve requests w)) =
    take 10 (history requests w ++ workflows (memory w)).
Proof.
  revert w. induction requests as [|request rest IH]; intros w Hlen.
  - simpl. by rewrite take_ge.
  - rewrite serve_cons. cbn [history].
    rewrite IH, POST_workflows by (rewrite ?POST_workflows, ?length_take; lia).
    by rewrite take_app_take, <- app_assoc.
Qed.

(** A call leaves the clock as it is and only adds readings; a call that
    succeeds reads the clock six times and stamps its record with the
    fourth reading. *)
Lemma POST_clock (request : Request) (w : World) :
  clock (complete (POST request) w).2 = clock w ∧
  (reads w ≤ reads (complete (POST request) w).2)%nat ∧
  ∀ rec, record_of request w = Some rec →
    WorkflowRecord.timestamp rec = clock w (3 + reads w) ∧
    (6 + reads w ≤ reads (complete (POST request) w).2)%nat.
Proof.
  unfold record_of.
  destruct (request_cases request)
    as [->|[(error & eventId & -> & H)|[(error & eventId & -> & Hf & Hs)
                                        |(s & eventId & -> & Hs)]]].
  - rewrite POST_not_json. simpl. split; [done|]. split; [lia|done].
  - rewrite POST_blank by done. simpl. split; [done|]. split; [lia|done].
  - rewrite POST_throws by done. simpl. split; [done|]. split; [lia|done].
  - rewrite POST_text by done. simpl. split; [done|]. split; [lia|].
    intros rec [= <-]. simpl. split; [done|lia].
Qed.

Lemma history_newest_first (requests : list Request) (w : World) :
  monotone (clock w) →
  newest_first (history requests w) ∧
  Forall (λ rec, ∃ n, (reads w ≤ n)%nat ∧ WorkflowRecord.timestamp rec = clock w n)
    (history requests w).
Proof.
  revert w. induction requests as [|request rest IH]; intros w Hmono.
  - split; constructor.
  - cbn [history].
    destruct (POST_clock request w) as (Hclock & Hreads & Hrec).
    destruct (IH (complete (POST request) w).2) as [Hsorted Htimes];
      [by rewrite Hclock|].
    rewrite Hclock in Htimes. rewrite Forall_forall in Htimes.
    split.
    + apply StronglySorted_app_2; [|done|].
      * intros x1 x2 Hx1 Hx2. destruct (Htimes x1 Hx1) as (n & Hn & ->).
        destruct (record_of request w) as [rec|]; simpl in Hx2; [|set_solver].
        apply list_elem_of_singleton in Hx2 as ->.
        destruct (Hrec rec eq_refl) as [-> Hsix]. apply Hmono. lia.
      * destruct (record_of request w); repeat constructor.
    + apply Forall_app. split.
      * apply Forall_forall. intros x Hx. destruct (Htimes x Hx) as (n & Hn & ->).
        exists n. split; [lia|done].
      * destruct (record_of request w) as [rec|]; simpl; [|constructor].
        destruct (Hrec rec eq_refl) as [Hts _]. apply Forall_singleton.
        exists (3 + reads w)%nat. split; [lia|done].
Qed.

Lemma newest_first_take (n : nat) (l : list WorkflowRecord.t) :
  newest_first l → newest_first (take n l).
Proof.
  unfold newest_first. rewrite <- (take_drop n l) at 1.
  apply StronglySorted_app_1_l.
Qed.

(** C2: from the empty store, after any sequence of requests the list of
    workflows has at most 10 entries, and it is the first 10 records of the
    calls that succeeded, the latest first: an eleventh record pushes the
    oldest one out.  When the clock never goes back, the timestamps of the
    list are in reverse-chronological order. *)
Theorem workflows_most_recent_first (clock : nat → Time) (requests : list Request) :
  let w := initial_world clock in
  (length (workflows (memory (serve requests w))) ≤ 10)%nat ∧
  workflows (memory (serve requests w)) = take 10 (history requests w) ∧
  (monotone clock → newest_first (workflows (memory (serve requests w)))).
Proof.
  cbv zeta. rewrite serve_workflows by (simpl; lia).
  simpl. rewrite app_nil_r, length_take. split; [lia|]. split; [done|].
  intros Hmono. apply newest_first_take.
  by apply (history_newest_first requests (initial_world clock)).
Qed.

(** ** Requests with the same identifier *)

Lemma take_two_pushed {A} (a b : A) (l : list A) :
  take 10 (a :: take 10 (b :: l)) = a :: b :: take 8 l.
Proof. simpl. by rewrite take_take. Qed.

(** C10: requests are not told apart by their identifier.  Two requests with
    the same [eventId], each with a text that passes validation, handled one
    after the other, raise [totalErrors] by two and put two records with
    that same id at the front of the list of workflows, so that the ids of
    the records in the store are not pairwise distinct. *)
Theorem same_eventId_not_deduplicated (w : World) (eventId s1 s2 : string) :
  all_whitespace s1 = false →
  all_whitespace s2 = false →
  let w' := serve [Some {| Body.error := Str s1; Body.eventId := eventId |};
                   Some {| Body.error := Str s2; Body.eventId := eventId |}] w in
  totalErrors (memory w') = totalErrors (memory w) + 2 ∧
  ∃ r2 r1,
    workflows (memory w') = r2 :: r1 :: take 8 (workflows (memory w)) ∧
    WorkflowRecord.id r1 = eventId ∧
    WorkflowRecord.id r2 = eventId ∧
    ¬ NoDup (WorkflowRecord.id <$> workflows (memory w')).
Proof.
  intros H1 H2. cbv zeta. unfold serve. cbn [foldl].
  rewrite (POST_text s1) by done. cbn [snd].
  rewrite (POST_text s2) by done. cbn [snd after memory applyResult totalErrors workflows].
  split; [lia|]. rewrite take_two_pushed. eexists _, _.
  split; [done|]. split; [done|]. split; [done|].
  cbn [fmap list_fmap WorkflowRecord.id]. intros Hnd.
  apply NoDup_cons in Hnd as [Hnotin _]. apply Hnotin. set_solver.
Qed.

Lemma same_eventId_not_deduplicated_witness :
  all_whitespace "syntax error" = false ∧
  all_whitespace "network timeout" = false ∧
  let w := initial_world tick in
  let w' := serve [Some {| Body.error := Str "syntax error"; Body.eventId := "e1" |};
                   Some {| Body.error := Str "network timeout"; Body.eventId := "e1" |}] w in
  totalErrors (memory w') = totalErrors (memory w) + 2 ∧
  ∃ r2 r1,
    workflows (memory w') = r2 :: r1 :: take 8 (workflows (memory w)) ∧
    WorkflowRecord.id r1 = "e1" ∧
    WorkflowRecord.id r2 = "e1" ∧
    ¬ NoDup (WorkflowRecord.id <$> workflows (memory w')).
Proof.
  split; [reflexivity|]. split; [reflexivity|].
  apply (same_eventId_not_deduplicated (initial_world tick) "e1"
           "syntax error" "network timeout"); reflexivity.
Defined.

(** ** Calls in flight together *)

(** Resuming a call moves it to its next stage. *)
Lemma resume_task_of (c : Call.t) (w : World) :
  all_whitespace (Call.text c) = false →
  resume (task_of c) w = (task_of (advance c w).1, (advance c w).2).
Proof.
  intros Hs. destruct c as [eventId text stage]. simpl in Hs.
  unfold task_of, advance. destruct stage; cbn [Call.stage Call.text Call.eventId fst snd].
  - by rewrite POST_start.
  - unfold resume. by rewrite validate_text.
  - unfold resume, mbind, M_bind. by rewrite process_effect.
  - done.
Qed.

Lemma advance_request (c : Call.t) (w : World) :
  request_of_call (advance c w).1 = request_of_call c.
Proof. unfold advance. by destruct (Call.stage c). Qed.

(** What resuming a call does to the store: nothing, or the one update the
    call is recorded with from then on. *)
Lemma advance_update (c : Call.t) (w : World) :
  (update_of (advance c w).1 = update_of c ∧ memory (advance c w).2 = memory w) ∨
  (∃ u, update_of c = None ∧ update_of (advance c w).1 = Some u ∧
        memory (advance c w).2 = apply_update (memory w) u).
Proof.
  unfold advance, update_of. destruct c as [eventId text []]; simpl; eauto.
Qed.

Lemma omap_insert_same {A B} (f : A → option B) (l : list A) (i : nat) (c c' : A) :
  l !! i = Some c → f c' = f c → omap f (<[i := c']> l) = omap f l.
Proof.
  revert i. induction l as [|x l IH]; intros [|i] Hi Hf; simplify_eq/=; [by rewrite Hf|].
  by rewrite (IH i).
Qed.

Lemma omap_insert_new {A B} (f : A → option B) (l : list A) (i : nat) (c c' : A) (u : B) :
  l !! i = Some c → f c = None → f c' = Some u →
  omap f (<[i := c']> l) ≡ₚ omap f l ++ [u].
Proof.
  revert i. induction l as [|x l IH]; intros [|i] Hi Hc Hc'; simplify_eq/=.
  - rewrite Hc, Hc'. by rewrite <- Permutation_cons_append.
  - destruct (f x); [|by eapply IH]. simpl. f_equiv. by eapply IH.
Qed.

Lemma in_flight_received (requests : list (string * string)) :
  in_flight requests = task_of <$> (received <$> requests).
Proof. unfold in_flight. rewrite <- list_fmap_compose. by apply list_fmap_ext. Qed.

Lemma serialised_start (requests : list (string * string)) (w : World) :
  serialised requests (memory w) (received <$> requests) w [].
Proof.
  split.
  - rewrite <- list_fmap_compose. rewrite <- (list_fmap_id requests) at 2.
    apply list_fmap_ext. by intros i [eventId text].
  - done.
  - induction requests as [|r requests IH]; [done|]. by simpl.
Qed.

Lemma step_task_of (i : nat) (calls : list Call.t) (w : World) :
  Forall (λ c, all_whitespace (Call.text c) = false) calls →
  step i (task_of <$> calls, w) =
    match calls !! i with
    | Some c => (task_of <$> <[i := (advance c w).1]> calls, (advance c w).2)
    | None => (task_of <$> calls, w)
    end.
Proof.
  intros Hvalid. unfold step. cbn [fst snd]. rewrite list_lookup_fmap.
  destruct (calls !! i) as [c|] eqn:Hi; simpl; [|done].
  rewrite resume_task_of, list_fmap_insert; [done|].
  by apply (Forall_lookup_1 _ _ _ _ Hvalid Hi).
Qed.

Lemma serialised_valid requests m0 calls w log :
  Forall (λ r, all_whitespace r.2 = false) requests →
  serialised requests m0 calls w log →
  Forall (λ c, all_whitespace (Call.text c) = false) calls.
Proof.
  intros Hvalid [Hreq _ _]. rewrite <- Hreq in Hvalid.
  by apply Forall_fmap in Hvalid.
Qed.

Lemma step_serialised requests m0 calls w log (i : nat) :
  Forall (λ r, all_whitespace r.2 = false) requests →
  serialised requests m0 calls w log →
  ∃ calls' w' log',
    step i (task_of <$> calls, w) = (task_of <$> calls', w') ∧
    serialised requests m0 calls' w' log'.
Proof.
  intros Hvalid Hser.
  rewrite (step_task_of i calls w) by by eapply serialised_valid.
  destruct Hser as [Hreq Hmem Hlog].
  destruct (calls !! i) as [c|] eqn:Hi; [|by exists calls, w, log].
  pose proof (advance_request c w) as Hsame.
  pose proof (advance_update c w) as Hupd.
  destruct (advance c w) as [c' w']. cbn [fst snd] in *.
  assert (request_of_call <$> <[i := c']> calls = requests) as Hreq'.
  { rewrite list_fmap_insert, Hsame, list_insert_id; [done|].
    by rewrite list_lookup_fmap, Hi. }
  destruct Hupd as [[Hu Hm]|(u & Hnone & Hsome & Hm)].
  - exists (<[i := c']> calls), w', log. split; [done|].
    split; [done|congruence|]. by rewrite (omap_insert_same _ _ _ c).
  - exists (<[i := c']> calls), w', (log ++ [u]). split; [done|]. split; [done| |].
    + unfold apply_serially in *. by rewrite foldl_snoc, <- Hmem.
    + by rewrite (omap_insert_new _ _ _ c c' u), Hlog.
Qed.

Lemma run_serialised requests m0 (schedule : list nat) calls w log :
  Forall (λ r, all_whitespace r.2 = false) requests →
  serialised requests m0 calls w log →
  ∃ calls' w' log',
    run schedule (task_of <$> calls, w) = (task_of <$> calls', w') ∧
    serialised requests m0 calls' w' log'.
Proof.
  intros Hvalid. revert calls w log.
  induction schedule as [|i schedule IH]; intros calls w log Hser.
  - by exists calls, w, log.
  - destruct (step_serialised requests m0 calls w log i Hvalid Hser)
      as (calls1 & w1 & log1 & Hstep & Hser1).
    unfold run. cbn [foldl]. rewrite Hstep. exact (IH calls1 w1 log1 Hser1).
Qed.

(** Once every call has returned, every call has its update. *)
Lemma returned_updates (calls : list Call.t) :
  Forall (λ task, returned task = true) (task_of <$> calls) →
  request_of_update <$> omap update_of calls = request_of_call <$> calls.
Proof.
  induction calls as [|[eventId text stage] calls IH]; [done|].
  rewrite fmap_cons, Forall_cons. intros [Hc Hcalls].
  destruct stage; try discriminate. simpl. f_equal. by apply IH.
Qed.

Lemma update_of_classified (calls : list Call.t) :
  Forall (λ u, ∃ t, Update.result u = classify (Update.rawInputText u) t)
    (omap update_of calls).
Proof.
  induction calls as [|[eventId text stage] calls IH]; [done|].
  destruct stage; try done. simpl. apply Forall_cons. eauto.
Qed.

(** ** Counting over a row of updates *)

Lemma occurrences_cons (k tag : string) (tags : list string) :
  occurrences k (tag :: tags) =
    (if bool_decide (tag = k) then 1 else 0) + occurrences k tags.
Proof.
  unfold occurrences. rewrite filter_cons.
  case_decide; by rewrite ?bool_decide_eq_true_2, ?bool_decide_eq_false_2 by done.
Qed.

Lemma occurrences_Permutation (k : string) (tags1 tags2 : list string) :
  tags1 ≡ₚ tags2 → occurrences k tags1 = occurrences k tags2.
Proof. intros H. unfold occurrences. by rewrite H. Qed.

Lemma apply_serially_cons (u : Update.t) (updates : list Update.t) (m : MemoryStore) :
  apply_serially (u :: updates) m = apply_serially updates (apply_update m u).
Proof. done. Qed.

Lemma apply_serially_totalErrors (updates : list Update.t) (m : MemoryStore) :
  totalErrors (apply_serially updates m) = totalErrors m + length updates.
Proof.
  revert m. induction updates as [|u updates IH]; intros m; [simpl; lia|].
  rewrite apply_serially_cons, IH. simpl. lia.
Qed.

Lemma apply_serially_errorTypes (updates : list Update.t) (m : MemoryStore) (k : string) :
  count_of (errorTypes (statistics (apply_serially updates m))) k =
    count_of (errorTypes (statistics m)) k +
    occurrences k ((λ u, errorType (Update.result u)) <$> updates).
Proof.
  revert m. induction updates as [|u updates IH]; intros m.
  - simpl. unfold occurrences. simpl. lia.
  - rewrite apply_serially_cons, IH, fmap_cons, occurrences_cons.
    cbn [apply_update applyResult statistics errorTypes].
    rewrite count_of_increment. lia.
Qed.

Lemma apply_serially_severityCount (updates : list Update.t) (m : MemoryStore) (k : string) :
  count_of (severityCount (statistics (apply_serially updates m))) k =
    count_of (severityCount (statistics m)) k +
    occurrences k ((λ u, severity (Update.result u)) <$> updates).
Proof.
  revert m. induction updates as [|u updates IH]; intros m.
  - simpl. unfold occurrences. simpl. lia.
  - rewrite apply_serially_cons, IH, fmap_cons, occurrences_cons.
    cbn [apply_update applyResult statistics severityCount].
    rewrite count_of_increment. lia.
Qed.

Lemma apply_serially_sums (updates : list Update.t) (m : MemoryStore) :
  sum_counts (errorTypes (statistics (apply_serially updates m))) =
    sum_counts (errorTypes (statistics m)) + length updates ∧
  sum_counts (severityCount (statistics (apply_serially updates m))) =
    sum_counts (severityCount (statistics m)) + length updates.
Proof.
  revert m. induction updates as [|u updates IH]; intros m; [simpl; lia|].
  rewrite apply_serially_cons. destruct (IH (apply_update m u)) as [-> ->].
  cbn [apply_update applyResult statistics errorTypes severityCount].
  rewrite !sum_counts_increment. cbn [length]. lia.
Qed.

(** A row of updates, one for each request, counts each request once,
    whatever the order of the row. *)
Lemma apply_serially_counts (requests : list (string * string))
    (updates : list Update.t) (m : MemoryStore) :
  request_of_update <$> updates ≡ₚ requests →
  Forall (λ u, ∃ t, Update.result u = classify (Update.rawInputText u) t) updates →
  counts_each_once requests m (apply_serially updates m).
Proof.
  intros Hperm Hcl.
  assert (length updates = length requests) as Hlen
    by by rewrite <- Hperm, length_fmap.
  assert (∀ f : string → string,
    (λ u, f (Update.rawInputText u)) <$> updates ≡ₚ (λ r, f r.2) <$> requests) as Htags.
  { intros f. rewrite <- Hperm, <- list_fmap_compose. done. }
  assert ((λ u, errorType (Update.result u)) <$> updates =
          (λ u, detectErrorType (Update.rawInputText u)) <$> updates) as He.
  { apply Forall_fmap_ext_1. eapply Forall_impl; [exact Hcl|].
    by intros u [t ->]. }
  assert ((λ u, severity (Update.result u)) <$> updates =
          (λ u, assessSeverity (Update.rawInputText u)) <$> updates) as Hs.
  { apply Forall_fmap_ext_1. eapply Forall_impl; [exact Hcl|].
    by intros u [t ->]. }
  destruct (apply_serially_sums updates m) as [Hse Hss].
  repeat split.
  - by rewrite apply_serially_totalErrors, Hlen.
  - intros k. rewrite apply_serially_errorTypes, He.
    by rewrite (occurrences_Permutation k _ _ (Htags detectErrorType)).
  - intros k. rewrite apply_serially_severityCount, Hs.
    by rewrite (occurrences_Permutation k _ _ (Htags assessSeverity)).
  - by rewrite Hse, Hlen.
  - by rewrite Hss, Hlen.
Qed.

(** C9: calls in flight together are resumed one at a time, and the store
    update of a call runs inside one resumption.  For any requests whose
    texts pass validation and any schedule that resumes their calls until
    all have returned, the store at the end is the store at the start with
    one update per request applied one after the other in some order; so
    [totalErrors], the counter of each error type and of each severity, and
    the sums of both tables, have grown by exactly one per request. *)
Theorem concurrent_updates_serialise (requests : list (string * string))
    (schedule : list nat) (w : World) :
  Forall (λ r, all_whitespace r.2 = false) requests →
  Forall (λ task, returned task = true) (run schedule (in_flight requests, w)).1 →
  ∃ updates : list Update.t,
    request_of_update <$> updates ≡ₚ requests ∧
    Forall (λ u, ∃ t, Update.result u = classify (Update.rawInputText u) t) updates ∧
    memory (run schedule (in_flight requests, w)).2 =
      apply_serially updates (memory w) ∧
    counts_each_once requests (memory w)
      (memory (run schedule (in_flight requests, w)).2).
Proof.
  intros Hvalid. rewrite in_flight_received.
  destruct (run_serialised requests (memory w) schedule _ w [] Hvalid
              (serialised_start requests w))
    as (calls & w' & log & -> & [Hreq Hmem Hlog]).
  cbn [fst snd]. intros Hdone.
  assert (request_of_update <$> log ≡ₚ requests) as Hperm
    by by rewrite Hlog, returned_updates, Hreq.
  assert (Forall (λ u, ∃ t, Update.result u = classify (Update.rawInputText u) t) log)
    as Hcl by (rewrite Hlog; apply update_of_classified).
  exists log. repeat split; try done.
  all: rewrite Hmem; by apply apply_serially_counts.
Qed.

Lemma concurrent_updates_serialise_witness :
  let requests := [("a", "syntax error"); ("b", "fatal timeout"); ("a", "network down")] in
  let schedule := [0; 1; 1; 2; 0; 1; 2; 0; 2]%nat in
  let w := initial_world tick in
  Forall (λ r, all_whitespace r.2 = false) requests ∧
  Forall (λ task, returned task = true) (run schedule (in_flight requests, w)).1 ∧
  ∃ updates : list Update.t,
    request_of_update <$> updates ≡ₚ requests ∧
    Forall (λ u, ∃ t, Update.result u = classify (Update.rawInputText u) t) updates ∧
    memory (run schedule (in_flight requests, w)).2 =
      apply_serially updates (memory w) ∧
    counts_each_once requests (memory w)
      (memory (run schedule (in_flight requests, w)).2).
Proof.
  cbv zeta.
  assert (Forall (λ r : string * string, all_whitespace r.2 = false)
            [("a", "syntax error"); ("b", "fatal timeout"); ("a", "network down")])
    as Hvalid by (repeat constructor).
  assert (returned <$>
            (run [0; 1; 1; 2; 0; 1; 2; 0; 2]%nat
               (in_flight [("a", "syntax error"); ("b", "fatal timeout");
                           ("a", "network down")], initial_world tick)).1 =
          [true; true; true]) as Hdone by (vm_compute; reflexivity).
  assert (Forall (λ task : Async Response, returned task = true)
            (run [0; 1; 1; 2; 0; 1; 2; 0; 2]%nat
               (in_flight [("a", "syntax error"); ("b", "fatal timeout");
                           ("a", "network down")], initial_world tick)).1) as Hall.
  { apply (proj1 (Forall_fmap returned (λ b : bool, b = true) _)).
    rewrite Hdone. by repeat constructor. }
  split; [exact Hvalid|]. split; [exact Hall|].
  exact (concurrent_updates_serialise _ _ _ Hvalid Hall).
Defined.

(** ** The store at every point of every interleaving *)

Lemma applyResult_store_ok requestId result text t (m : MemoryStore) :
  store_ok m → store_ok (applyResult requestId result text t m).
Proof.
  intros [Hc Hl]. split; [by apply applyResult_counts_agree|].
  simpl. rewrite length_take. lia.
Qed.

Lemma validate_cases (error : Value) (eventId : string) (w : World) :
  (∃ response, (validate error eventId w).1 = Return response ∧
               memory (validate error eventId w).2 = memory w) ∨
  (∃ text, (validate error eventId w).1 =
             Await (r ← process text eventId; mret (Return r)) ∧
           memory (validate error eventId w).2 = memory w).
Proof.
  destruct (request_cases (Some {| Body.error := error; Body.eventId := eventId |}))
    as [?|[(error' & eventId' & [= <- <-] & H)|[(error' & eventId' & [= <- <-] & Hf & Hs)
                                        |(s & eventId' & [= -> <-] & Hs)]]];
    [done| | |].
  - left. rewrite validate_blank by done. eauto.
  - left. rewrite validate_throws by done. eauto.
  - right. rewrite validate_text by done. eauto.
Qed.

(** Resuming a call of the route gives a call of the route, and keeps the
    store invariant. *)
Lemma resume_in_progress (task : Async Response) (w : World) :
  in_progress task → store_ok (memory w) →
  in_progress (resume task w).1 ∧ store_ok (memory (resume task w).2).
Proof.
  intros Htask Hok. destruct Htask as [[[error eventId]|]|error eventId|text eventId|response].
  - rewrite POST_start. split; [constructor|done].
  - split; [constructor|done].
  - cbn [resume].
    destruct (validate_cases error eventId w) as [(r & -> & ->)|(text & -> & ->)];
      (split; [constructor|done]).
  - unfold resume, mbind, M_bind. rewrite process_effect. split; [constructor|].
    by apply applyResult_store_ok.
  - split; [constructor|done].
Qed.

Lemma step_in_progress (i : nat) (pool : Pool) (w : World) :
  Forall in_progress pool → store_ok (memory w) →
  Forall in_progress (step i (pool, w)).1 ∧ store_ok (memory (step i (pool, w)).2).
Proof.
  intros Hpool Hok. unfold step. cbn [fst snd].
  destruct (pool !! i) as [task|] eqn:Hi; [|done].
  destruct (resume_in_progress task w) as [Htask Hok']; [|done|].
  { by apply (Forall_lookup_1 _ _ _ _ Hpool Hi). }
  destruct (resume task w) as [task' w']. split; [|done].
  by apply Forall_insert.
Qed.

(** Whatever the requests and however their calls are interleaved, at every
    point the counts of the store agree and its history has at most 10
    entries. *)
Lemma store_ok_at_all_times (requests : list Request) (clock : nat → Time)
    (schedule : list nat) :
  store_ok (memory (run schedule (POST <$> requests, initial_world clock)).2).
Proof.
  assert (∀ pool w, Forall in_progress pool → store_ok (memory w) →
            store_ok (memory (run schedule (pool, w)).2)) as Hrun.
  { induction schedule as [|i schedule IH]; intros pool w Hpool Hok; [done|].
    destruct (step_in_progress i pool w Hpool Hok) as [Hpool' Hok'].
    unfold run. cbn [foldl]. destruct (step i (pool, w)) as [pool' w'].
    by apply IH. }
  apply Hrun.
  - apply Forall_fmap, Forall_true. constructor.
  - split; [apply initial_memory_counts_agree|simpl; lia].
Qed.

(** ** Checks on concrete inputs *)

(** The keys the route writes to the counter tables are these fixed tags;
    none of them is a property every JavaScript object inherits, so reading
    a tag that was never written gives [undefined]. *)
Lemma detectErrorType_range (text : string) :
  detectErrorType text ∈
    ["Syntax Error"; "Type Error"; "Reference Error"; "Network Error";
     "Timeout Error"; "General Error"].
Proof.
  unfold detectErrorType. cbv zeta.
  repeat match goal with
  | |- context [JS.includes ?s ?kw] => destruct (JS.includes s kw)
  end; set_solver.
Qed.

Lemma assessSeverity_range (text : string) :
  assessSeverity text ∈ ["critical"; "high"; "medium"; "low"].
Proof.
  unfold assessSeverity. cbv zeta.
  repeat match goal with
  | |- context [JS.includes ?s ?kw] => destruct (JS.includes s kw)
  end; set_solver.
Qed.

Example classify_TypeError :
  let text := "TypeError: Cannot read property 'name' of undefined" in
  detectErrorType text = "Type Error" ∧
  assessSeverity text = "high" ∧
  generateSuggestions text = baseline_suggestions.
Proof. by vm_compute. Qed.

Example classify_priority :
  detectErrorType "Network TIMEOUT after a Syntax problem" = "Syntax Error" ∧
  assessSeverity "warning: FATAL exception" = "critical" ∧
  generateSuggestions "timeout on the network" =
    baseline_suggestions ++
    ["Verify network connectivity"; "Check API endpoints";
     "Increase timeout duration"; "Optimize query performance"].
Proof. by vm_compute. Qed.

Example trim_examples :
  JS.trim "  a b  " = "a b" ∧ JS.trim "   " = "" ∧ JS.toLowerCase "FaTaL" = "fatal".
Proof. by vm_compute. Qed.

Example POST_success_events :
  stage_of <$>
    published (complete (POST (Some {| Body.error := Str "Syntax error";
                                       Body.eventId := "e1" |}))
                 (initial_world tick)).2 =
  [("validation", "processing"); ("workflow", "processing");
   ("memory_update", "completed"); ("completed", "completed")].
Proof. by vm_compute. Qed.

Example POST_not_a_string :
  (complete (POST (Some {| Body.error := Number 7; Body.eventId := "e1" |}))
     (initial_world tick)).1 = Failure 500 "Processing failed".
Proof. by vm_compute. Qed.

Example eleven_requests_keep_ten :
  let request n := Some {| Body.error := Str "boom"; Body.eventId := n |} in
  WorkflowRecord.id <$>
    workflows (memory (serve (request <$> ["1"; "2"; "3"; "4"; "5"; "6"; "7"; "8";
                                            "9"; "10"; "11"])
                         (initial_world tick))) =
  ["11"; "10"; "9"; "8"; "7"; "6"; "5"; "4"; "3"; "2"].
Proof. by vm_compute. Qed.

(** * Further properties of the route *)

(** ** The kinds of input *)

Lemma refused_input_blank (error : Value) :
  refused_input error →
  falsy error = true ∨ ∃ s, error = Str s ∧ all_whitespace s = true.
Proof.
  intros [H|H]; [left|by right].
  repeat (apply elem_of_cons in H as [->|H]; [done|]). by apply elem_of_nil in H.
Qed.

Lemma not_a_text_throws (error : Value) :
  not_a_text error → falsy error = false ∧ ∀ s, error ≠ Str s.
Proof.
  intros [->|[(n & Hn & ->)| ->]]; (split; [|done]); simpl; [done| |done].
  by apply bool_decide_eq_false_2.
Qed.

(** Every value is of exactly one kind. *)
Lemma input_kinds (error : Value) :
  refused_input error ∨ not_a_text error ∨
  ∃ s, error = Str s ∧ all_whitespace s = false.
Proof.
  destruct error as [| |[]|n|s|].
  - left. left. set_solver.
  - left. left. set_solver.
  - right. left. by left.
  - left. left. set_solver.
  - destruct (decide (n = 0%Z)) as [->|Hn].
    + left. left. set_solver.
    + right. left. right. left. by exists n.
  - destruct (all_whitespace s) eqn:Hs.
    + left. right. by exists s.
    + right. right. by exists s.
  - right. left. right. by right.
Qed.

Lemma refused_input_not_text (error : Value) (s : string) :
  refused_input error → error = Str s → all_whitespace s = true.
Proof.
  intros Hr ->. destruct Hr as [H|(s' & [= <-] & Hs)]; [|done].
  repeat (apply elem_of_cons in H as [?|H]; [done|]). by apply elem_of_nil in H.
Qed.

(** X1: [null], [false] and [0] are refused like a missing text: the answer
    is the failure "Invalid input" with status 400, the store is left as it
    was, and the call publishes the validation event and then the
    validation-failed event. *)
Theorem falsy_input_rejected (w : World) (error : Value) (eventId : string) :
  error ∈ [Null; Bool false; Number 0] →
  let (response, w') :=
    complete (POST (Some {| Body.error := error; Body.eventId := eventId |})) w in
  response = Failure 400 "Invalid input" ∧
  memory w' = memory w ∧
  published w' =
    published w ++ [validationEvent eventId (clock w (reads w));
                    errorEvent eventId (clock w (1 + reads w))].
Proof.
  intros H. rewrite POST_blank; [done|]. left.
  repeat (apply elem_of_cons in H as [->|H]; [done|]). by apply elem_of_nil in H.
Qed.

Lemma falsy_input_rejected_witness :
  Null ∈ [Null; Bool false; Number 0] ∧
  let (response, w') :=
    complete (POST (Some {| Body.error := Null; Body.eventId := "e1" |}))
      (initial_world tick) in
  response = Failure 400 "Invalid input" ∧
  memory w' = memory (initial_world tick) ∧
  published w' =
    published (initial_world tick) ++
      [validationEvent "e1" (clock (initial_world tick) (reads (initial_world tick)));
       errorEvent "e1" (clock (initial_world tick) (1 + reads (initial_world tick)))].
Proof.
  split; [set_solver|].
  apply (falsy_input_rejected (initial_world tick) Null "e1"). set_solver.
Defined.

(** X2: a value of [error] that is truthy and not a string ([true], a
    number other than 0, an object or an array) makes [error.trim] fail: the
    answer is the failure "Processing failed" with status 500, the store is
    left as it was, and the only event of the call is the validation event
    published before the check; no validation-failed event follows. *)
Theorem non_text_input_fails (w : World) (error : Value) (eventId : string) :
  not_a_text error →
  let (response, w') :=
    complete (POST (Some {| Body.error := error; Body.eventId := eventId |})) w in
  response = Failure 500 "Processing failed" ∧
  memory w' = memory w ∧
  published w' = published w ++ [validationEvent eventId (clock w (reads w))].
Proof.
  intros [Hf Hs]%not_a_text_throws. by rewrite POST_throws.
Qed.

Lemma non_text_input_fails_witness :
  not_a_text (Number 7) ∧
  let (response, w') :=
    complete (POST (Some {| Body.error := Number 7; Body.eventId := "e1" |}))
      (initial_world tick) in
  response = Failure 500 "Processing failed" ∧
  memory w' = memory (initial_world tick) ∧
  published w' =
    published (initial_world tick) ++
      [validationEvent "e1" (clock (initial_world tick) (reads (initial_world tick)))].
Proof.
  assert (not_a_text (Number 7)) as H by (right; left; by exists 7%Z).
  split; [exact H|].
  exact (non_text_input_fails (initial_world tick) (Number 7) "e1" H).
Defined.

(** X3: the answer of the route is decided by the input alone.  It is a
    success exactly for a text with a code unit that is not white space; it
    is the failure 400 "Invalid input" exactly for a missing, falsy or
    all-white-space [error]; and it is the failure 500 "Processing failed"
    exactly when the body cannot be read or [error] is truthy and not a
    string. *)
Theorem response_by_input (w : World) (request : Request) :
  match (complete (POST request) w).1 with
  | Success _ _ => accepted request = true
  | Failure status message =>
      accepted request = false ∧
      ((status = 400 ∧ message = "Invalid input" ∧
        ∃ body, request = Some body ∧ refused_input (Body.error body)) ∨
       (status = 500 ∧ message = "Processing failed" ∧
        (request = None ∨
         ∃ body, request = Some body ∧ not_a_text (Body.error body))))
  end.
Proof.
  destruct request as [[error eventId]|]; [|rewrite POST_not_json; simpl; eauto 6].
  destruct (input_kinds error) as [Hr|[Hn|(s & -> & Hs)]].
  - rewrite POST_blank by by apply refused_input_blank. cbn [fst].
    split; [|left; eauto 6]. simpl. destruct error; try done.
    by rewrite (refused_input_not_text _ s Hr).
  - pose proof Hn as [Hf Hs]%not_a_text_throws. rewrite POST_throws by done.
    cbn [fst]. split; [|right; eauto 8]. simpl. destruct error; try done.
    by destruct (Hs s).
  - rewrite POST_text by done. simpl. by rewrite Hs.
Qed.

(** ** What a successful call leaves behind *)

Lemma substring0_prefix (n : nat) (s : string) :
  ∃ rest, s = JS.substring0 n s +:+ rest.
Proof.
  unfold JS.substring0. revert s. induction n as [|n IH]; intros s.
  - exists s. by destruct s.
  - destruct s as [|c s]; [by exists ""|].
    destruct (IH s) as [rest Hrest]. exists rest.
    change (String c s = String c (substring 0 n s +:+ rest)). by f_equal.
Qed.

Lemma substring0_length (n : nat) (s : string) :
  String.length (JS.substring0 n s) = n `min` String.length s.
Proof.
  unfold JS.substring0. revert s. induction n as [|n IH]; intros s.
  - by destruct s.
  - destruct s as [|c s]; [done|]. simpl. by rewrite IH.
Qed.

(** X4: after a successful call [lastProcessed] holds the first 100 code
    units of the text as it was sent (the text is not trimmed): the whole
    text when it has at most 100 code units, and never more than 100. *)
Theorem lastProcessed_keeps_first_100 (w : World) (s eventId : string) :
  all_whitespace s = false →
  ∃ kept rest,
    lastProcessed
      (memory (complete (POST (Some {| Body.error := Str s;
                                       Body.eventId := eventId |})) w).2)
      = Some kept ∧
    s = kept +:+ rest ∧
    String.length kept = 100 `min` String.length s.
Proof.
  intros Hs. rewrite POST_text by done.
  destruct (substring0_prefix 100 s) as [rest Hrest].
  exists (JS.substring0 100 s), rest. split; [done|]. split; [done|].
  apply substring0_length.
Qed.

Lemma lastProcessed_keeps_first_100_witness :
  all_whitespace "  fatal syntax error" = false ∧
  ∃ kept rest,
    lastProcessed
      (memory (complete (POST (Some {| Body.error := Str "  fatal syntax error";
                                       Body.eventId := "e1" |}))
                 (initial_world tick)).2)
      = Some kept ∧
    "  fatal syntax error" = kept +:+ rest ∧
    String.length kept = 100 `min` String.length "  fatal syntax error".
Proof.
  split; [reflexivity|].
  apply (lastProcessed_keeps_first_100 (initial_world tick)
           "  fatal syntax error" "e1"). reflexivity.
Defined.

(** X5: the answer to a successful call carries the classification of the
    text and the store as the call leaves it: the store counts the request,
    and its first workflow is the record of this request, with the request
    identifier as id and the answered classification as result.  The last
    event of the call, the completed event, carries the same classification
    and names its error type in its message. *)
Theorem success_response_reflects_store (w : World) (s eventId : string) :
  all_whitespace s = false →
  let (response, w') :=
    complete (POST (Some {| Body.error := Str s; Body.eventId := eventId |})) w in
  ∃ workflow rec completed,
    response = Success workflow (memory w') ∧
    errorType workflow = detectErrorType s ∧
    severity workflow = assessSeverity s ∧
    suggestions workflow = generateSuggestions s ∧
    totalErrors (memory w') = totalErrors (memory w) + 1 ∧
    workflows (memory w') !! 0 = Some rec ∧
    WorkflowRecord.id rec = eventId ∧
    WorkflowRecord.result rec = workflow ∧
    last (published w') = Some completed ∧
    RealtimeEvent.data completed = ResultData workflow ∧
    RealtimeEvent.message completed =
      "Error processed successfully: " +:+ detectErrorType s.
Proof.
  intros Hs. rewrite POST_text by done.
  exists (classify s (clock w (2 + reads w))),
    {| WorkflowRecord.id := eventId;
       WorkflowRecord.result := classify s (clock w (2 + reads w));
       WorkflowRecord.timestamp := clock w (3 + reads w) |},
    (completedEvent eventId (classify s (clock w (2 + reads w)))
       (clock w (5 + reads w))).
  split_and!; try done. cbn [published after].
  apply last_Some. eexists (_ ++ [_; _; _]). by rewrite <- app_assoc.
Qed.

Lemma success_response_reflects_store_witness :
  all_whitespace "network timeout" = false ∧
  let (response, w') :=
    complete (POST (Some {| Body.error := Str "network timeout";
                            Body.eventId := "e1" |})) (initial_world tick) in
  ∃ workflow rec completed,
    response = Success workflow (memory w') ∧
    errorType workflow = detectErrorType "network timeout" ∧
    severity workflow = assessSeverity "network timeout" ∧
    suggestions workflow = generateSuggestions "network timeout" ∧
    totalErrors (memory w') = totalErrors (memory (initial_world tick)) + 1 ∧
    workflows (memory w') !! 0 = Some rec ∧
    WorkflowRecord.id rec = "e1" ∧
    WorkflowRecord.result rec = workflow ∧
    last (published w') = Some completed ∧
    RealtimeEvent.data completed = ResultData workflow ∧
    RealtimeEvent.message completed =
      "Error processed successfully: " +:+ detectErrorType "network timeout".
Proof.
  split; [reflexivity|].
  apply (success_response_reflects_store (initial_world tick) "network timeout" "e1").
  reflexivity.
Defined.

(** ** Invariants of the store under any interleaving *)

(** What resuming a call of the route does to the store: nothing, or the
    update of one classified text. *)
Lemma resume_store (task : Async Response) (w : World) :
  in_progress task →
  in_progress (resume task w).1 ∧
  (memory (resume task w).2 = memory w ∨
   ∃ eventId text t1 t2,
     memory (resume task w).2 =
       applyResult eventId (classify text t1) text t2 (memory w)).
Proof.
  intros [[[error eventId]|]|error eventId|text eventId|response].
  - rewrite POST_start. split; [constructor|by left].
  - split; [constructor|by left].
  - cbn [resume].
    destruct (validate_cases error eventId w) as [(r & -> & ->)|(text & -> & ->)];
      (split; [constructor|by left]).
  - unfold resume, mbind, M_bind. rewrite process_effect. split; [constructor|].
    right. by eexists _, _, _, _.
  - split; [constructor|by left].
Qed.

Lemma run_store_invariant (P : MemoryStore → Prop) :
  (∀ eventId text t1 t2 m,
     P m → P (applyResult eventId (classify text t1) text t2 m)) →
  ∀ (schedule : list nat) (pool : Pool) (w : World),
    Forall in_progress pool → P (memory w) →
    P (memory (run schedule (pool, w)).2).
Proof.
  intros Hupd. induction schedule as [|i schedule IH]; intros pool w Hpool Hw; [done|].
  unfold run. cbn [foldl]. fold (run schedule (step i (pool, w))).
  unfold step. cbn [fst snd]. destruct (pool !! i) as [task|] eqn:Hi; [|by apply IH].
  destruct (resume_store task w) as [Htask Hmem].
  { by apply (Forall_lookup_1 _ _ _ _ Hpool Hi). }
  destruct (resume task w) as [task' w']. cbn [fst snd] in *. apply IH.
  - by apply Forall_insert.
  - destruct Hmem as [->|(eventId & text & t1 & t2 & ->)]; [done|by apply Hupd].
Qed.

Lemma calls_in_progress (requests : list Request) :
  Forall in_progress (POST <$> requests).
Proof. apply Forall_fmap, Forall_true. constructor. Qed.

(** X6: the fields of the store agree with each other at every point of
    every interleaving of any requests: the history holds as many records as
    requests were counted, up to 10, and [lastProcessed] is [null] exactly as
    long as nothing has been counted. *)
Theorem store_fields_agree (requests : list Request) (clock : nat → Time)
    (schedule : list nat) :
  let m := memory (run schedule (POST <$> requests, initial_world clock)).2 in
  length (workflows m) = totalErrors m `min` 10 ∧
  (lastProcessed m = None ↔ totalErrors m = 0).
Proof.
  apply (run_store_invariant
           (λ m, length (workflows m) = totalErrors m `min` 10 ∧
                 (lastProcessed m = None ↔ totalErrors m = 0))).
  - intros eventId text t1 t2 m [Hlen Hlast].
    cbn [applyResult workflows totalErrors lastProcessed].
    rewrite length_take. cbn [length]. split; [lia|]. split; [done|lia].
  - apply calls_in_progress.
  - done.
Qed.

(** X7: [averageProcessingTime] is never computed: it is 0 at every point of
    every interleaving of any requests. *)
Theorem averageProcessingTime_stays_0 (requests : list Request) (clock : nat → Time)
    (schedule : list nat) :
  averageProcessingTime
    (statistics (memory (run schedule (POST <$> requests, initial_world clock)).2)) = 0.
Proof.
  apply (run_store_invariant (λ m, averageProcessingTime (statistics m) = 0));
    [done|apply calls_in_progress|done].
Qed.

Lemma counts_within_increment (tags : list string) (counts : gmap string nat)
    (k : string) :
  k ∈ tags → counts_within tags counts →
  counts_within tags (<[k := count_of counts k + 1]> counts).
Proof.
  intros Hk Hcounts. apply map_Forall_insert_2; [|done]. split; [done|lia].
Qed.

(** X8: the counter tables only ever hold the tags of the classifier, each
    with a positive count: the keys of [errorTypes] are among the six error
    types and the keys of [severityCount] among the four severities, at
    every point of every interleaving of any requests. *)
Theorem counter_tables_hold_tags (requests : list Request) (clock : nat → Time)
    (schedule : list nat) :
  let m := memory (run schedule (POST <$> requests, initial_world clock)).2 in
  counts_within errorType_tags (errorTypes (statistics m)) ∧
  counts_within severity_tags (severityCount (statistics m)).
Proof.
  apply (run_store_invariant
           (λ m, counts_within errorType_tags (errorTypes (statistics m)) ∧
                 counts_within severity_tags (severityCount (statistics m)))).
  - intros eventId text t1 t2 m [He Hs]. simpl. split.
    + apply counts_within_increment; [apply detectErrorType_range|done].
    + apply counts_within_increment; [apply assessSeverity_range|done].
  - apply calls_in_progress.
  - split; apply map_Forall_empty.
Qed.

(** ** Adding up the calls of an interleaving *)

Lemma still_to_do_called (request : Request) :
  still_to_do (POST request) (due_of request).1 (due_of request).2.
Proof.
  destruct request as [[error eventId]|]; [|constructor].
  destruct (input_kinds error) as [Hr|[Hn|(s & -> & Hs)]].
  - replace (due_of _) with (0, 2); [by constructor|].
    unfold due_of, accepted, events_due. cbn [Body.error].
    destruct (refused_input_blank error Hr) as [Hf|(s & -> & Hs)].
    + destruct error as [| |b|n|s|]; simpl in *; rewrite ?Hf; try done.
      by apply bool_decide_eq_true in Hf as ->.
    + by rewrite Hs.
  - destruct (not_a_text_throws error Hn) as [Hf Hs].
    replace (due_of _) with (0, 1); [by constructor|].
    unfold due_of, accepted, events_due. cbn [Body.error].
    destruct error as [| |b|n|s|]; simpl in *; rewrite ?Hf; try done.
    by destruct (Hs s).
  - replace (due_of _) with (1, 4); [by constructor|].
    unfold due_of, accepted, events_due. cbn [Body.error]. by rewrite Hs.
Qed.

(** Resuming a call does part of what the call still had to do, and leaves
    the rest to do. *)
Lemma resume_still_to_do (task : Async Response) (u e : nat) (w : World) :
  still_to_do task u e →
  ∃ u' e',
    still_to_do (resume task w).1 u' e' ∧
    totalErrors (memory (resume task w).2) + u' = totalErrors (memory w) + u ∧
    length (published (resume task w).2) + e' = length (published w) + e.
Proof.
  intros Htask. destruct Htask as
    [ | s eventId Hs | error eventId Hr | error eventId Hn
      | s eventId Hs | error eventId Hr | error eventId Hn
      | text eventId | response ].
  - exists 0, 0. split; [constructor|done].
  - rewrite POST_start. exists 1, 3. split; [by constructor|].
    cbn [fst snd after memory published]. rewrite length_app. simpl. lia.
  - rewrite POST_start. exists 0, 1. split; [by constructor|].
    cbn [fst snd after memory published]. rewrite length_app. simpl. lia.
  - rewrite POST_start. exists 0, 0. split; [by constructor|].
    cbn [fst snd after memory published]. rewrite length_app. simpl. lia.
  - cbn [resume]. rewrite validate_text by done. exists 1, 2. split; [constructor|].
    cbn [fst snd after memory published]. rewrite length_app. simpl. lia.
  - cbn [resume]. rewrite validate_blank by by apply refused_input_blank.
    exists 0, 0. split; [constructor|].
    cbn [fst snd after memory published]. rewrite length_app. simpl. lia.
  - destruct (not_a_text_throws error Hn) as [Hf Hs].
    cbn [resume]. rewrite validate_throws by done.
    exists 0, 0. split; [constructor|done].
  - unfold resume, mbind, M_bind. rewrite process_effect. unfold mret, M_ret.
    exists 0, 0. split; [constructor|].
    cbn [fst snd after memory published applyResult totalErrors].
    rewrite length_app. simpl. lia.
  - exists 0, 0. split; [constructor|done].
Qed.

Lemma still_to_do_returned (task : Async Response) (u e : nat) :
  still_to_do task u e → returned task = true → u = 0 ∧ e = 0.
Proof. intros Htask. by destruct Htask. Qed.

Lemma sum_list_insert (l : list nat) (i x y : nat) :
  l !! i = Some x → sum_list (<[i := y]> l) + x = sum_list l + y.
Proof.
  revert i. induction l as [|z l IH]; intros [|i] Hi; simplify_eq/=; [lia|].
  specialize (IH i Hi). lia.
Qed.

(** The state of an interleaving: what the store counts and the hub has
    published so far, together with what the calls still have to do, is what
    it was at the start. *)
Lemma run_still_to_do (schedule : list nat) (pool : Pool) (dues : list (nat * nat))
    (w : World) :
  Forall2 (λ task d, still_to_do task d.1 d.2) pool dues →
  ∃ dues',
    Forall2 (λ task d, still_to_do task d.1 d.2)
      (run schedule (pool, w)).1 dues' ∧
    totalErrors (memory (run schedule (pool, w)).2) + sum_list (fst <$> dues') =
      totalErrors (memory w) + sum_list (fst <$> dues) ∧
    length (published (run schedule (pool, w)).2) + sum_list (snd <$> dues') =
      length (published w) + sum_list (snd <$> dues).
Proof.
  revert pool dues w. induction schedule as [|i schedule IH]; intros pool dues w Hpool.
  - by exists dues.
  - unfold run. cbn [foldl]. fold (run schedule (step i (pool, w))).
    unfold step. cbn [fst snd]. destruct (pool !! i) as [task|] eqn:Hi; [|by apply IH].
    destruct (Forall2_lookup_l _ _ _ _ _ Hpool Hi) as ([u e] & Hd & Htask).
    destruct (resume_still_to_do task u e w Htask) as (u' & e' & Htask' & Hu & He).
    destruct (resume task w) as [task' w']. cbn [fst snd] in *.
    destruct (IH (<[i := task']> pool) (<[i := (u', e')]> dues) w') as (dues' & H1 & H2 & H3).
    { by apply Forall2_insert. }
    exists dues'. split; [done|].
    rewrite H2, H3, !list_fmap_insert. cbn [fst snd].
    pose proof (sum_list_insert (fst <$> dues) i u u') as Hsu.
    pose proof (sum_list_insert (snd <$> dues) i e e') as Hse.
    rewrite list_lookup_fmap, Hd in Hsu, Hse. specialize (Hsu eq_refl).
    specialize (Hse eq_refl). lia.
Qed.

Lemma nothing_to_do (pool : Pool) (dues : list (nat * nat)) :
  Forall2 (λ task d, still_to_do task d.1 d.2) pool dues →
  Forall (λ task, returned task = true) pool →
  sum_list (fst <$> dues) = 0 ∧ sum_list (snd <$> dues) = 0.
Proof.
  induction 1 as [|task [u e] pool dues Htask _ IH]; [done|].
  intros [Hret Hpool]%Forall_cons.
  destruct (still_to_do_returned task u e Htask Hret) as [-> ->].
  destruct (IH Hpool) as [Hu He]. rewrite !fmap_cons. cbn [sum_list_with fst snd].
  by rewrite Hu, He.
Qed.

Lemma sum_due_updates (requests : list Request) :
  sum_list (fst <$> (due_of <$> requests)) =
    length (filter (λ r, accepted r = true) requests).
Proof.
  induction requests as [|r requests IH]; [done|].
  rewrite !fmap_cons, filter_cons. cbn [sum_list_with fst due_of]. rewrite IH.
  by destruct (accepted r); case_decide.
Qed.

(** X9: whatever the requests in flight and however their calls are
    interleaved, once every call has returned [totalErrors] has grown by the
    number of requests with an acceptable text, and the number of published
    events by four for each of these, two for each refused request (missing,
    falsy or all-white-space [error]), one for each request whose [error] is
    truthy and not a string, and none for a body that cannot be read. *)
Theorem interleaved_calls_add_up (requests : list Request) (schedule : list nat)
    (w : World) :
  Forall (λ task, returned task = true) (run schedule (POST <$> requests, w)).1 →
  totalErrors (memory (run schedule (POST <$> requests, w)).2) =
    totalErrors (memory w) + length (filter (λ r, accepted r = true) requests) ∧
  length (published (run schedule (POST <$> requests, w)).2) =
    length (published w) + sum_list (events_due <$> requests).
Proof.
  intros Hdone.
  destruct (run_still_to_do schedule (POST <$> requests) (due_of <$> requests) w)
    as (dues' & Hdues & Hu & He).
  { apply Forall2_fmap, Forall2_same_length_lookup_2; [done|].
    intros i x y Hx Hy. simplify_eq. apply still_to_do_called. }
  destruct (nothing_to_do _ _ Hdues Hdone) as [Hu0 He0].
  rewrite Hu0 in Hu. rewrite He0 in He. rewrite sum_due_updates in Hu.
  rewrite <- list_fmap_compose in He. split; [lia|].
  rewrite Nat.add_0_r in He. rewrite He. f_equal.
Qed.

Lemma interleaved_calls_add_up_witness :
  let requests :=
    [Some {| Body.error := Str "syntax error"; Body.eventId := "a" |};
     None;
     Some {| Body.error := Str "   "; Body.eventId := "b" |};
     Some {| Body.error := Number 7; Body.eventId := "c" |}] in
  let schedule := [3; 0; 2; 1; 0; 2; 3; 0]%nat in
  let w := initial_world tick in
  Forall (λ task, returned task = true) (run schedule (POST <$> requests, w)).1 ∧
  totalErrors (memory (run schedule (POST <$> requests, w)).2) =
    totalErrors (memory w) + length (filter (λ r, accepted r = true) requests) ∧
  length (published (run schedule (POST <$> requests, w)).2) =
    length (published w) + sum_list (events_due <$> requests).
Proof.
  cbv zeta.
  assert (Forall (λ task : Async Response, returned task = true)
            (run [3; 0; 2; 1; 0; 2; 3; 0]%nat
               (POST <$>
                  [Some {| Body.error := Str "syntax error"; Body.eventId := "a" |};
                   None;
                   Some {| Body.error := Str "   "; Body.eventId := "b" |};
                   Some {| Body.error := Number 7; Body.eventId := "c" |}],
                initial_world tick)).1) as Hall.
  { apply (proj1 (Forall_fmap returned (λ b : bool, b = true) _)).
    vm_compute. by repeat constructor. }
  split; [exact Hall|].
  exact (interleaved_calls_add_up _ _ _ Hall).
Defined.

(** ** More on the classifier *)

(** [toLowerCase] on one code unit, by the kind of the letter. *)
Lemma toLowerCase_unit_capital (c : ascii) :
  capital c → JS.toLowerCase_unit c = ascii_of_N (JS.code c + 32).
Proof.
  unfold JS.toLowerCase_unit, capital. cbv zeta. intros Hc.
  destruct (N.leb_spec 65 (JS.code c)), (N.leb_spec (JS.code c) 90),
    (N.leb_spec 192 (JS.code c)), (N.leb_spec (JS.code c) 222),
    (N.eqb_spec (JS.code c) 215); simpl; try done; exfalso; lia.
Qed.

Lemma toLowerCase_unit_other (c : ascii) :
  ¬ capital c → JS.toLowerCase_unit c = c.
Proof.
  unfold JS.toLowerCase_unit, capital. cbv zeta. intros Hc.
  destruct (N.leb_spec 65 (JS.code c)), (N.leb_spec (JS.code c) 90),
    (N.leb_spec 192 (JS.code c)), (N.leb_spec (JS.code c) 222),
    (N.eqb_spec (JS.code c) 215); simpl; try done; exfalso; apply Hc; lia.
Qed.

Lemma code_inj (a b : ascii) : JS.code a = JS.code b → a = b.
Proof.
  unfold JS.code. intros H.
  by rewrite <- (ascii_N_embedding a), <- (ascii_N_embedding b), H.
Qed.

Lemma small_of_not_capital (u l : ascii) : small_of u l → ¬ capital l.
Proof. unfold small_of, capital. lia. Qed.

Lemma small_of_toLowerCase (u l : ascii) :
  small_of u l → JS.toLowerCase_unit u = l ∧ JS.toLowerCase_unit l = l.
Proof.
  intros Hul. pose proof (small_of_not_capital u l Hul) as Hl.
  destruct Hul as [Hu Hcode]. split.
  - rewrite toLowerCase_unit_capital by done. rewrite <- Hcode.
    apply ascii_N_embedding.
  - by apply toLowerCase_unit_other.
Qed.

Lemma same_letter_toLowerCase (a b : ascii) :
  same_letter a b ↔ JS.toLowerCase_unit a = JS.toLowerCase_unit b.
Proof.
  split.
  - intros [->|[H|H]]; [done| |];
      destruct (small_of_toLowerCase _ _ H) as [H1 H2]; congruence.
  - intros H.
    assert (∀ c, capital c →
      JS.code (ascii_of_N (JS.code c + 32)) = (JS.code c + 32)%N) as Hcode.
    { intros c Hc. unfold JS.code at 1. apply N_ascii_embedding.
      unfold capital in Hc. lia. }
    destruct (decide (capital a)) as [Ha|Ha], (decide (capital b)) as [Hb|Hb].
    + left. rewrite !toLowerCase_unit_capital in H by done.
      apply code_inj. apply (f_equal JS.code) in H.
      rewrite !Hcode in H by done. lia.
    + right. left. split; [done|].
      rewrite toLowerCase_unit_capital, toLowerCase_unit_other in H by done.
      rewrite <- H. by apply Hcode.
    + right. right. split; [done|].
      rewrite toLowerCase_unit_other, toLowerCase_unit_capital in H by done.
      rewrite H. by apply Hcode.
    + left. by rewrite !toLowerCase_unit_other in H by done.
Qed.

(** Texts that are equal up to case are the texts [toLowerCase] sends to the
    same text. *)
Lemma equal_up_to_case_toLowerCase (a b : string) :
  equal_up_to_case a b ↔ same_ignoring_case a b.
Proof.
  unfold same_ignoring_case. split.
  - induction 1 as [|a b s t Hab _ IH]; [done|]. simpl.
    apply same_letter_toLowerCase in Hab. by rewrite Hab, IH.
  - revert b. induction a as [|a s IH]; intros [|b t] H; try discriminate.
    + constructor.
    + injection H as Hab Hst. constructor; [by apply same_letter_toLowerCase|by apply IH].
Qed.

(** X10: the classification of a text does not depend on the case of its
    letters: two texts with the same letters at the same positions, capital
    or small, get the same error type, severity and suggestions. *)
Theorem classification_ignores_case (a b : string) (t : Time) :
  equal_up_to_case a b → classify a t = classify b t.
Proof.
  intros H%equal_up_to_case_toLowerCase. unfold same_ignoring_case in H.
  unfold classify, detectErrorType, assessSeverity, generateSuggestions.
  by rewrite H.
Qed.

Ltac same_letters :=
  repeat first
    [ apply equal_up_to_case_empty
    | apply equal_up_to_case_letter;
      [ first [ by left
              | right; left; split; [unfold capital; simpl; lia|reflexivity]
              | right; right; split; [unfold capital; simpl; lia|reflexivity] ]
      | ] ].

Lemma classification_ignores_case_witness :
  equal_up_to_case "FATAL Syntax" "fatal sYNTAX" ∧
  classify "FATAL Syntax" 0%Z = classify "fatal sYNTAX" 0%Z.
Proof.
  assert (equal_up_to_case "FATAL Syntax" "fatal sYNTAX") as H by same_letters.
  split; [exact H|].
  exact (classification_ignores_case "FATAL Syntax" "fatal sYNTAX" 0%Z H).
Defined.

(** A keyword found in a text is found in every text around it. *)
Lemma includes_embedded (pre text post kw : string) :
  JS.includes (JS.toLowerCase text) kw = true →
  JS.includes (JS.toLowerCase (pre +:+ text +:+ post)) kw = true.
Proof.
  rewrite !includes_spec. intros (a & b & H).
  exists (JS.toLowerCase pre +:+ a), (b +:+ JS.toLowerCase post).
  rewrite !toLowerCase_app, H.
  assert (∀ x y z : string, (x +:+ y) +:+ z = x +:+ y +:+ z) as Hassoc.
  { intros x y z. induction x as [|c x IH]; [done|].
    change (String c ((x +:+ y) +:+ z) = String c (x +:+ y +:+ z)). by f_equal. }
  by rewrite !Hassoc.
Qed.

(** Case analysis on the keyword tests of a text and of a text around it:
    a test that holds of the inner text holds of the outer one. *)
Ltac embedded_cases pre text post :=
  repeat match goal with
  | |- context [JS.includes (JS.toLowerCase text) ?kw] =>
      let H := fresh "H" in
      destruct (JS.includes (JS.toLowerCase text) kw) eqn:H;
      [ rewrite ?(includes_embedded pre text post kw H) | clear H ]
  end;
  repeat match goal with
  | |- context [JS.includes (JS.toLowerCase (pre +:+ text +:+ post)) ?kw] =>
      destruct (JS.includes (JS.toLowerCase (pre +:+ text +:+ post)) kw)
  end.

(** X11: putting more text before or after a text never lowers its
    severity, keeps the error type [Syntax Error] (the first rule), and only
    adds suggestions: those of the text are kept, in their order. *)
Theorem more_text_keeps_findings (pre text post : string) :
  (severity_rank (assessSeverity text)
     ≤ severity_rank (assessSeverity (pre +:+ text +:+ post)))%nat ∧
  (detectErrorType text = "Syntax Error" →
   detectErrorType (pre +:+ text +:+ post) = "Syntax Error") ∧
  generateSuggestions text `sublist_of` generateSuggestions (pre +:+ text +:+ post).
Proof.
  split; [|split].
  - unfold assessSeverity. cbv zeta. embedded_cases pre text post; vm_compute; lia.
  - unfold detectErrorType. cbv zeta. embedded_cases pre text post; done.
  - unfold generateSuggestions. cbv zeta. embedded_cases pre text post; simpl;
      repeat first [ apply sublist_nil | apply sublist_skip | apply sublist_cons ].
Qed.

(** X12: the error type says which suggestions come with it.  With
    [General Error] the suggestions are the two baseline entries alone; with
    [Timeout Error] they are the baseline and the timeout pair; with
    [Network Error] they start with the baseline and the network pair and
    hold no syntax entry; and the syntax pair is among them exactly when the
    error type is [Syntax Error]. *)
Theorem suggestions_by_errorType (text : string) :
  (detectErrorType text = "General Error" →
   generateSuggestions text = baseline_suggestions) ∧
  (detectErrorType text = "Timeout Error" →
   generateSuggestions text =
     baseline_suggestions ++
     ["Increase timeout duration"; "Optimize query performance"]) ∧
  (detectErrorType text = "Network Error" →
   ∃ more,
     generateSuggestions text =
       baseline_suggestions ++
       ["Verify network connectivity"; "Check API endpoints"] ++ more ∧
     (more = [] ∨ more = ["Increase timeout duration"; "Optimize query performance"])) ∧
  (detectErrorType text = "Syntax Error" ↔
   "Validate code syntax" ∈ generateSuggestions text).
Proof.
  unfold detectErrorType, generateSuggestions, baseline_suggestions. cbv zeta.
  repeat match goal with
  | |- context [JS.includes (JS.toLowerCase text) ?kw] =>
      destruct (JS.includes (JS.toLowerCase text) kw)
  end; simpl; split_and!; try done; try (intros _; eexists; split; [done|]; eauto);
    try (split; [intros _; set_solver|done]);
    try (split; [done|]; intros Hin;
         repeat (apply elem_of_cons in Hin as [?|Hin]; [done|]);
         by apply elem_of_nil in Hin).
Qed.

(** ** The events of one call *)

Lemma events_of_after (request : Request) (w : World) r n evs m :
  complete (POST request) w = (r, after w n evs m) →
  events_of request w = evs.
Proof.
  intros H. unfold events_of. rewrite H. cbn [snd published after].
  by rewrite drop_app_length.
Qed.

Lemma events_of_text (s eventId : string) (w : World) :
  all_whitespace s = false →
  events_of (Some {| Body.error := Str s; Body.eventId := eventId |}) w =
    [validationEvent eventId (clock w (reads w));
     workflowEvent eventId (clock w (1 + reads w));
     memoryEvent eventId (clock w (4 + reads w));
     completedEvent eventId (classify s (clock w (2 + reads w)))
       (clock w (5 + reads w))].
Proof. intros Hs. eapply events_of_after. by rewrite POST_text. Qed.

(** The events of a call, by kind of input. *)
Lemma events_of_cases (error : Value) (eventId : string) (w : World) :
  let request := Some {| Body.error := error; Body.eventId := eventId |} in
  events_of request w =
    [validationEvent eventId (clock w (reads w));
     errorEvent eventId (clock w (1 + reads w))] ∨
  events_of request w = [validationEvent eventId (clock w (reads w))] ∨
  ∃ s, error = Str s ∧ all_whitespace s = false ∧
    events_of request w =
      [validationEvent eventId (clock w (reads w));
       workflowEvent eventId (clock w (1 + reads w));
       memoryEvent eventId (clock w (4 + reads w));
       completedEvent eventId (classify s (clock w (2 + reads w)))
         (clock w (5 + reads w))].
Proof.
  cbv zeta. destruct (input_kinds error) as [Hr|[Hn|(s & -> & Hs)]].
  - left. eapply events_of_after.
    by rewrite POST_blank by by apply refused_input_blank.
  - right. left. destruct (not_a_text_throws error Hn) as [Hf Hs].
    eapply events_of_after. by rewrite POST_throws.
  - right. right. exists s. split; [done|]. split; [done|]. by apply events_of_text.
Qed.

(** X13: event ids are not unique across requests, even when the request
    identifiers differ: the completed event of a request whose identifier is
    [e] followed by "_validation" has the same id as the validation event
    of a request whose identifier is [e]. *)
Theorem event_ids_collide_across_requests (e s : string) (error : Value)
    (w1 w2 : World) :
  all_whitespace s = false →
  ∃ ev1 ev2,
    ev1 ∈ events_of (Some {| Body.error := error; Body.eventId := e |}) w1 ∧
    ev2 ∈ events_of (Some {| Body.error := Str s;
                             Body.eventId := e +:+ "_validation" |}) w2 ∧
    RealtimeEvent.type ev1 = "validation" ∧
    RealtimeEvent.type ev2 = "completed" ∧
    RealtimeEvent.id ev1 = RealtimeEvent.id ev2.
Proof.
  intros Hs.
  exists (validationEvent e (clock w1 (reads w1))),
    (completedEvent (e +:+ "_validation") (classify s (clock w2 (2 + reads w2)))
       (clock w2 (5 + reads w2))).
  split_and!; try done.
  - destruct (events_of_cases error e w1) as [->|[->|(s' & _ & _ & ->)]]; set_solver.
  - rewrite events_of_text by done. set_solver.
Qed.

Lemma event_ids_collide_across_requests_witness :
  all_whitespace "timeout" = false ∧
  ∃ ev1 ev2,
    ev1 ∈ events_of (Some {| Body.error := Str "boom"; Body.eventId := "e1" |})
            (initial_world tick) ∧
    ev2 ∈ events_of (Some {| Body.error := Str "timeout";
                             Body.eventId := "e1" +:+ "_validation" |})
            (initial_world tick) ∧
    RealtimeEvent.type ev1 = "validation" ∧
    RealtimeEvent.type ev2 = "completed" ∧
    RealtimeEvent.id ev1 = RealtimeEvent.id ev2.
Proof.
  split; [reflexivity|].
  apply (event_ids_collide_across_requests "e1" "timeout" (Str "boom")
           (initial_world tick) (initial_world tick)).
  reflexivity.
Defined.

(** X14: when the clock never goes back, the events of a call carry
    timestamps in the order in which they are published, and the record of a
    successful call is stamped no earlier than its classification
    ([processedAt]). *)
Theorem events_in_time_order (request : Request) (w : World) :
  monotone (clock w) →
  in_time_order (events_of request w) ∧
  ∀ rec, record_of request w = Some rec →
    (processedAt (WorkflowRecord.result rec) ≤ WorkflowRecord.timestamp rec)%Z.
Proof.
  intros Hmono. split.
  - destruct request as [[error eventId]|].
    + destruct (events_of_cases error eventId w) as [->|[->|(s' & _ & _ & ->)]];
        unfold in_time_order;
        repeat (apply SSorted_cons || apply SSorted_nil || apply Forall_cons_2
                || apply Forall_nil_2);
        simpl; apply Hmono; lia.
    + unfold events_of. rewrite POST_not_json. cbn [snd].
      rewrite drop_all. constructor.
  - intros rec Hrec.
    destruct (POST_memory request w) as [[Hnone _]|(s & eventId & _ & _ & Hsome & _)];
      [congruence|].
    rewrite Hsome in Hrec. injection Hrec as <-. simpl. apply Hmono. lia.
Qed.

Lemma monotone_tick : monotone tick.
Proof. intros i j Hij. unfold tick. lia. Qed.

Lemma events_in_time_order_witness :
  let request := Some {| Body.error := Str "fatal timeout"; Body.eventId := "e1" |} in
  monotone (clock (initial_world tick)) ∧
  in_time_order (events_of request (initial_world tick)) ∧
  ∀ rec, record_of request (initial_world tick) = Some rec →
    (processedAt (WorkflowRecord.result rec) ≤ WorkflowRecord.timestamp rec)%Z.
Proof.
  cbv zeta. split; [exact monotone_tick|].
  exact (events_in_time_order _ (initial_world tick) monotone_tick).
Defined.

(** X15: a call of the route has returned after three resumptions at most
    (the reading of the body and the two delays), whatever its input: the
    event loop resuming it three times does all that the call does and
    leaves it returned with its answer. *)
Theorem returned_after_three_resumptions (request : Request) (w : World) :
  resume_three_times (POST request) w =
    (Return (complete (POST request) w).1, (complete (POST request) w).2).
Proof.
  unfold resume_three_times, mbind, M_bind.
  destruct request as [[error eventId]|]; [|done].
  rewrite POST_start.
  destruct (input_kinds error) as [Hr|[Hn|(s & -> & Hs)]].
  - rewrite POST_blank by by apply refused_input_blank.
    cbn [resume]. rewrite validate_blank by by apply refused_input_blank.
    cbn [resume fst snd]. unfold mret, M_ret. by rewrite after_after.
  - destruct (not_a_text_throws error Hn) as [Hf Hs].
    rewrite POST_throws by done. cbn [resume]. by rewrite validate_throws.
  - rewrite POST_text by done. cbn [resume]. rewrite validate_text by done.
    cbn [resume]. unfold mbind, M_bind. rewrite process_effect.
    unfold mret, M_ret. cbn [fst snd]. by rewrite !after_after.
Qed.

(** ** The last text processed *)

Lemma POST_lastProcessed (request : Request) (w : World) :
  lastProcessed (memory (complete (POST request) w).2) =
    match accepted_text request with
    | Some s => Some (JS.substring0 100 s)
    | None => lastProcessed (memory w)
    end.
Proof.
  destruct request as [[error eventId]|]; [|done].
  destruct (input_kinds error) as [Hr|[Hn|(s & -> & Hs)]].
  - rewrite POST_blank by by apply refused_input_blank.
    unfold accepted_text. cbn [Body.error]. destruct error; try done.
    by rewrite (refused_input_not_text _ s Hr).
  - destruct (not_a_text_throws error Hn) as [Hf Hs].
    rewrite POST_throws by done.
    unfold accepted_text. cbn [Body.error]. destruct error; try done.
    by destruct (Hs s).
  - rewrite POST_text by done. unfold accepted_text. cbn [Body.error]. by rewrite Hs.
Qed.

Lemma serve_lastProcessed (requests : list Request) (w : World) :
  lastProcessed (memory (serve requests w)) =
    match last (omap accepted_text requests) with
    | Some s => Some (JS.substring0 100 s)
    | None => lastProcessed (memory w)
    end.
Proof.
  revert w. induction requests as [|request rest IH]; intros w; [done|].
  rewrite serve_cons, IH, POST_lastProcessed. cbn [omap list_omap].
  destruct (accepted_text request) as [s|]; [|done].
  rewrite last_cons. by destruct (last (omap accepted_text rest)).
Qed.

(** X16: after any sequence of requests from the empty store,
    [lastProcessed] is the first 100 code units of the text of the latest
    request the route accepted, whatever refused or failing requests came
    after it, and [null] when no request was accepted. *)
Theorem lastProcessed_is_latest_accepted (clock : nat → Time)
    (requests : list Request) :
  lastProcessed (memory (serve requests (initial_world clock))) =
    JS.substring0 100 <$> last (omap accepted_text requests).
Proof.
  rewrite serve_lastProcessed. by destruct (last (omap accepted_text requests)).
Qed.
